(** * Fuzzy matching and ranking (lilium_palette/fuzzy.py)

    A shallow embedding of the matcher ([fuzzy_match], [fuzzy_score]), the
    ranker ([rank_matches]) and the prefilter ([build_sql_pattern]) of
    [src/lilium_palette/fuzzy.py], followed by the properties stated about
    them.

    Modelling choices.
    - A Python [str] is a [list ascii]: a sequence of code points, here the
      256 code points of Latin-1, with [str.lower], [str.islower] and
      [str.isupper] as Python defines them on those code points.  On this
      alphabet [lower] maps one character to one character.  Module [wide]
      embeds the matcher once more over an alphabet on which it does not
      (U+0130 is in it); [wide_fuzzy_match_latin1] shows that the two
      embeddings agree on Latin-1 strings, and the properties of the
      matcher that need the alphabet say so.
    - A Python [int] is a [Z].  Indices are kept in [Z] as in the source
      ([prev_match_idx] starts at [-1]).
    - Indexing [s[i]] follows Python: a negative index counts from the end,
      an index out of range raises [IndexError].  Functions that index
      therefore live in the error monad [res].
    - The [while] loop is a fixpoint on fuel; exhausting it is the outcome
      [Raise FuelExhausted].  The callers pass [len(target)], which is shown
      to be enough, so that outcome never occurs.
    - [list.sort(key=...)] is the stable ascending sort that Python
      documents, comparing keys with [<] only.  It is written as an
      insertion sort; [list_sort_unique] shows that every sort that is
      stable returns the same list. *)

From Stdlib Require Import ZArith Ascii String.
From stdpp Require Import base tactics option list sorting gmap strings.

Local Open Scope Z_scope.

(** ** Outcomes of a call *)

Inductive exn : Type :=
  | IndexError
  | FuelExhausted.

Inductive res (A : Type) : Type :=
  | Ok (a : A)
  | Raise (e : exn).

Arguments Ok {A} a.
Arguments Raise {A} e.

Definition res_bind {A B} (m : res A) (k : A -> res B) : res B :=
  match m with
  | Ok a => k a
  | Raise e => Raise e
  end.

Definition res_map {A B} (f : A -> B) (m : res A) : res B :=
  res_bind m (fun a => Ok (f a)).

Notation "x <-- m ;; k" := (res_bind m (fun x => k))
  (at level 100, m at next level, right associativity).

(** ** Strings *)

Abbreviation str := (list ascii).

Definition str_of (s : string) : str := list_ascii_of_string s.

(** [len(s)] *)
Definition len {A} (s : list A) : Z := Z.of_nat (length s).

Definition code (c : ascii) : N := N_of_ascii c.

Definition code_in (lo hi : N) (c : ascii) : bool :=
  ((lo <=? code c) && (code c <=? hi))%N.

(** [c.isupper()] for a one-character string: A-Z, and the Latin-1 capitals
    U+00C0..U+00D6, U+00D8..U+00DE. *)
Definition isupper (c : ascii) : bool :=
  code_in 65 90 c || code_in 192 214 c || code_in 216 222 c.

(** [c.islower()] for a one-character string: a-z, the ordinal indicators
    U+00AA and U+00BA, U+00B5, and U+00DF..U+00F6, U+00F8..U+00FF. *)
Definition islower (c : ascii) : bool :=
  code_in 97 122 c || code_in 170 170 c || code_in 181 181 c
  || code_in 186 186 c || code_in 223 246 c || code_in 248 255 c.

(** [c.lower()] for one character: every capital is 32 below its small
    letter. *)
Definition lower_char (c : ascii) : ascii :=
  if isupper c then ascii_of_N (code c + 32) else c.

(** [s.lower()] *)
Definition lower (s : str) : str := map lower_char s.

(** [s[i]] *)
Definition str_at (s : str) (i : Z) : res ascii :=
  let j := if i <? 0 then i + len s else i in
  if j <? 0 then Raise IndexError
  else match s !! Z.to_nat j with
       | Some c => Ok c
       | None => Raise IndexError
       end.

(** [l[:stop]] *)
Definition slice_to {A} (l : list A) (stop : Z) : list A :=
  let stop' := if stop <? 0 then Z.max 0 (stop + len l) else stop in
  take (Z.to_nat stop') l.

(** ** Scoring constants *)

Definition SCORE_CONSECUTIVE : Z := 16.
Definition SCORE_WORD_BOUNDARY : Z := 32.
Definition SCORE_FIRST_CHAR : Z := 16.
Definition SCORE_GAP_PENALTY : Z := -3.

Definition WORD_BOUNDARY_CHARS : gset ascii := list_to_set (str_of "/_-. ").

Record FuzzyMatch : Type := mkFuzzyMatch {
  score : Z;
  positions : list Z
}.

(** ** [_is_word_boundary] *)

Definition _is_word_boundary (target : str) (index : Z) : res bool :=
  if index =? 0 then Ok true
  else
    prev_char <-- str_at target (index - 1) ;;
    if bool_decide (prev_char ∈ WORD_BOUNDARY_CHARS) then Ok true
    else
      curr_char <-- str_at target index ;;
      if islower prev_char && isupper curr_char then Ok true
      else Ok false.

(** ** [fuzzy_match] *)

(** The local variables that the two loops of [fuzzy_match] update. *)
Record match_vars : Type := mkMatchVars {
  mv_positions : list Z;
  mv_score : Z;
  mv_target_idx : Z;
  mv_prev_match_idx : Z
}.

(** The score after a match of the [query_idx]-th character at
    [target_idx] (lines 88-99). *)
Definition score_match (target : str) (query_idx target_idx prev_match_idx : Z)
    (score : Z) : res Z :=
  let score :=
    if (query_idx =? 0) && (target_idx =? 0) then score + SCORE_FIRST_CHAR
    else score in
  wb <-- _is_word_boundary target target_idx ;;
  let score := if wb then score + SCORE_WORD_BOUNDARY else score in
  let score :=
    if prev_match_idx >=? 0 then
      let gap := target_idx - prev_match_idx - 1 in
      if gap =? 0 then score + SCORE_CONSECUTIVE
      else score + gap * SCORE_GAP_PENALTY
    else score in
  Ok score.

(** The [while target_idx < target_len] loop of lines 83-105; the boolean
    is [found]. *)
Fixpoint match_while (fuel : nat) (target target_lower : str) (target_len : Z)
    (query_idx : Z) (query_char : ascii) (v : match_vars)
    : res (bool * match_vars) :=
  if mv_target_idx v <? target_len then
    match fuel with
    | O => Raise FuelExhausted
    | S fuel' =>
        c <-- str_at target_lower (mv_target_idx v) ;;
        if Ascii.eqb c query_char then
          let positions := mv_positions v ++ [mv_target_idx v] in
          score <-- score_match target query_idx (mv_target_idx v)
                      (mv_prev_match_idx v) (mv_score v) ;;
          Ok (true, {| mv_positions := positions;
                       mv_score := score;
                       mv_target_idx := mv_target_idx v + 1;
                       mv_prev_match_idx := mv_target_idx v |})
        else
          match_while fuel' target target_lower target_len query_idx query_char
            {| mv_positions := mv_positions v;
               mv_score := mv_score v;
               mv_target_idx := mv_target_idx v + 1;
               mv_prev_match_idx := mv_prev_match_idx v |}
    end
  else Ok (false, v).

(** The [for query_idx, query_char in enumerate(query_lower)] loop of lines
    80-108; [None] is the early [return None]. *)
Fixpoint match_for (target target_lower : str) (target_len : Z)
    (query_idx : Z) (query_lower : str) (v : match_vars)
    : res (option match_vars) :=
  match query_lower with
  | [] => Ok (Some v)
  | query_char :: rest =>
      r <-- match_while (Z.to_nat target_len) target target_lower target_len
              query_idx query_char v ;;
      let '(found, v') := r in
      if negb found then Ok None
      else match_for target target_lower target_len (query_idx + 1) rest v'
  end.

Definition fuzzy_match (query target : str) : res (option FuzzyMatch) :=
  match query with
  | [] => Ok (Some {| score := 0; positions := [] |})
  | _ =>
      let query_lower := lower query in
      let target_lower := lower target in
      let query_len := len query in
      let target_len := len target in
      if query_len >? target_len then Ok None
      else
        r <-- match_for target target_lower target_len 0 query_lower
                {| mv_positions := []; mv_score := 0;
                   mv_target_idx := 0; mv_prev_match_idx := -1 |} ;;
        match r with
        | None => Ok None
        | Some v =>
            Ok (Some {| score := mv_score v; positions := mv_positions v |})
        end
  end.

(** ** [fuzzy_score] *)

Record score_vars : Type := mkScoreVars {
  sv_score : Z;
  sv_target_idx : Z;
  sv_prev_match_idx : Z
}.

(** Lines 139-150. *)
Definition score_only (target : str) (query_idx target_idx prev_match_idx : Z)
    (score : Z) : res Z :=
  let score :=
    if (query_idx =? 0) && (target_idx =? 0) then score + SCORE_FIRST_CHAR
    else score in
  wb <-- _is_word_boundary target target_idx ;;
  let score := if wb then score + SCORE_WORD_BOUNDARY else score in
  let score :=
    if prev_match_idx >=? 0 then
      let gap := target_idx - prev_match_idx - 1 in
      if gap =? 0 then score + SCORE_CONSECUTIVE
      else score + gap * SCORE_GAP_PENALTY
    else score in
  Ok score.

(** Lines 137-156. *)
Fixpoint score_while (fuel : nat) (target target_lower : str) (target_len : Z)
    (query_idx : Z) (query_char : ascii) (v : score_vars)
    : res (bool * score_vars) :=
  if sv_target_idx v <? target_len then
    match fuel with
    | O => Raise FuelExhausted
    | S fuel' =>
        c <-- str_at target_lower (sv_target_idx v) ;;
        if Ascii.eqb c query_char then
          score <-- score_only target query_idx (sv_target_idx v)
                      (sv_prev_match_idx v) (sv_score v) ;;
          Ok (true, {| sv_score := score;
                       sv_target_idx := sv_target_idx v + 1;
                       sv_prev_match_idx := sv_target_idx v |})
        else
          score_while fuel' target target_lower target_len query_idx query_char
            {| sv_score := sv_score v;
               sv_target_idx := sv_target_idx v + 1;
               sv_prev_match_idx := sv_prev_match_idx v |}
    end
  else Ok (false, v).

(** Lines 135-159. *)
Fixpoint score_for (target target_lower : str) (target_len : Z)
    (query_idx : Z) (query_lower : str) (v : score_vars)
    : res (option score_vars) :=
  match query_lower with
  | [] => Ok (Some v)
  | query_char :: rest =>
      r <-- score_while (Z.to_nat target_len) target target_lower target_len
              query_idx query_char v ;;
      let '(found, v') := r in
      if negb found then Ok None
      else score_for target target_lower target_len (query_idx + 1) rest v'
  end.

Definition fuzzy_score (query target : str) : res (option Z) :=
  match query with
  | [] => Ok (Some 0)
  | _ =>
      let query_lower := lower query in
      let target_lower := lower target in
      let query_len := len query in
      let target_len := len target in
      if query_len >? target_len then Ok None
      else
        r <-- score_for target target_lower target_len 0 query_lower
                {| sv_score := 0; sv_target_idx := 0;
                   sv_prev_match_idx := -1 |} ;;
        match r with
        | None => Ok None
        | Some v => Ok (Some (sv_score v))
        end
  end.

(** ** Comparing sort keys *)

(** Python orders strings lexicographically by code point. *)
Fixpoint str_compare (a b : str) : comparison :=
  match a, b with
  | [], [] => Eq
  | [], _ :: _ => Lt
  | _ :: _, [] => Gt
  | x :: a', y :: b' =>
      match (code x ?= code y)%N with
      | Eq => str_compare a' b'
      | o => o
      end
  end.

(** [a < b] and [a <= b] on strings *)
Definition str_lt (a b : str) : bool :=
  match str_compare a b with Lt => true | _ => false end.

Definition str_le (a b : str) : bool :=
  match str_compare a b with Gt => false | _ => true end.

(** [a < b] on the tuples [(int, str)]: the first components decide unless
    they are equal. *)
Definition tuple_lt (a b : Z * str) : bool :=
  if a.1 =? b.1 then str_lt a.2 b.2 else a.1 <? b.1.

(** ** [list.sort(key=...)] *)

Section list_sort.
Context {A K : Type} (lt : K -> K -> bool) (key : A -> K).

(** [x] comes from the left of everything in [l]: it goes before the
    first element whose key is not smaller than its own. *)
Fixpoint sort_insert (x : A) (l : list A) : list A :=
  match l with
  | [] => [x]
  | y :: l' =>
      if lt (key y) (key x) then y :: sort_insert x l' else x :: y :: l'
  end.

Fixpoint list_sort (l : list A) : list A :=
  match l with
  | [] => []
  | x :: l' => sort_insert x (list_sort l')
  end.
End list_sort.

(** ** [rank_matches] *)

Definition DEFAULT_LIMIT : Z := 50.

Section rank.
Context {T : Type}.

(** The [for item in items] loop of lines 189-193. *)
Fixpoint rank_for (query : str) (key : T -> str) (items : list T)
    (scored : list (T * Z)) : res (list (T * Z)) :=
  match items with
  | [] => Ok scored
  | item :: rest =>
      let target := key item in
      score <-- fuzzy_score query target ;;
      match score with
      | Some s => rank_for query key rest (scored ++ [(item, s)])
      | None => rank_for query key rest scored
      end
  end.

(** [lambda x: (-x[1], key(x[0]))] *)
Definition sort_key (key : T -> str) (x : T * Z) : Z * str :=
  (- x.2, key x.1).

Definition rank_matches (query : str) (items : list T) (key : T -> str)
    (limit : Z) : res (list (T * Z)) :=
  match query with
  | [] => Ok (map (fun item => (item, 0)) (slice_to items limit))
  | _ =>
      scored <-- rank_for query key items [] ;;
      let scored := list_sort tuple_lt (sort_key key) scored in
      Ok (slice_to scored limit)
  end.

(** The call that leaves [limit] out. *)
Definition rank_matches_default (query : str) (items : list T)
    (key : T -> str) : res (list (T * Z)) :=
  rank_matches query items key DEFAULT_LIMIT.
End rank.

(** ** [build_sql_pattern] *)

(** [s.replace(old, new)] for a one-character [old]. *)
Definition replace (old : ascii) (new : str) (s : str) : str :=
  flat_map (fun c => if Ascii.eqb c old then new else [c]) s.

(** [sep.join(parts)] *)
Fixpoint join (sep : str) (parts : list str) : str :=
  match parts with
  | [] => []
  | p :: rest =>
      match rest with
      | [] => p
      | _ :: _ => p ++ sep ++ join sep rest
      end
  end.

(** Iterating over a string yields its characters as strings of length 1. *)
Definition chars (s : str) : list str := map (fun c => [c]) s.

Definition build_sql_pattern (query : str) : str :=
  match query with
  | [] => str_of "%"
  | _ =>
      let escaped :=
        replace "_" (str_of "\_") (replace "%" (str_of "\%") query) in
      str_of "%" ++ join (str_of "%") (chars (lower escaped)) ++ str_of "%"
  end.

(** * Search results (palette/models.py) *)

(** [c.isspace()] on the Latin-1 code points: the controls U+0009..U+000D
    and U+001C..U+001F, the space, U+0085 and U+00A0. *)
Definition isspace (c : ascii) : bool :=
  code_in 9 13 c || code_in 28 32 c || code_in 133 133 c || code_in 160 160 c.

Fixpoint lstrip (s : str) : str :=
  match s with
  | [] => []
  | c :: s' => if isspace c then lstrip s' else s
  end.

Definition rstrip (s : str) : str := reverse (lstrip (reverse s)).

(** [s.strip()] *)
Definition strip (s : str) : str := rstrip (lstrip s).

(** [l[i]] on a list *)
Definition list_at {A} (l : list A) (i : Z) : res A :=
  let j := if i <? 0 then i + len l else i in
  if j <? 0 then Raise IndexError
  else match l !! Z.to_nat j with
       | Some x => Ok x
       | None => Raise IndexError
       end.

Module models.

Record NoteResult : Type := mkNoteResult {
  id : str;
  title : str;
  full_path : str
}.

(** [f"[{self.title}][{self.id}]"] *)
Definition to_markdown_link (self : NoteResult) : str :=
  str_of "[" ++ title self ++ str_of "][" ++ id self ++ str_of "]".

(** [f"[{self.title}][{self.full_path}]"] *)
Definition to_markdown_link_by_path (self : NoteResult) : str :=
  str_of "[" ++ title self ++ str_of "][" ++ full_path self ++ str_of "]".

Definition DEFAULT_CANDIDATE_LIMIT : Z := 500.

(** [search_notes].  The database is a parameter: [fetchall pattern n] is
    the list of rows that the [SELECT ... LIKE ? ESCAPE '\' ORDER BY
    full_path LIMIT ?] of lines 69-77 returns for the pattern and limit
    bound to it.  A failure of the database is an exception of [sqlite3]
    that passes through [search_notes] untouched and is not modelled. *)
Definition search_notes (fetchall : str -> Z -> list NoteResult)
    (query : str) (limit candidate_limit : Z) : res (list NoteResult) :=
  match strip query with
  | [] => Ok []
  | _ =>
      let search_pattern := build_sql_pattern query in
      let candidates := fetchall search_pattern candidate_limit in
      ranked <-- rank_matches query candidates full_path limit ;;
      Ok (map (fun '(note, _score) => note) ranked)
  end.

(** [NoteSearchModel.getMarkdownLink], on the list [self._results]. *)
Definition getMarkdownLink (_results : list NoteResult) (row : Z) : res str :=
  if (0 <=? row) && (row <? len _results) then
    note <-- list_at _results row ;;
    Ok (to_markdown_link note)
  else Ok [].

(** [NoteSearchModel.getMarkdownLinkByPath] *)
Definition getMarkdownLinkByPath (_results : list NoteResult) (row : Z)
    : res str :=
  if (0 <=? row) && (row <? len _results) then
    note <-- list_at _results row ;;
    Ok (to_markdown_link_by_path note)
  else Ok [].

End models.

(** * The dictation controller (dictation/controller.py) *)

Module controller.

Inductive DictationState : Type :=
  | IDLE
  | RECORDING
  | TRANSCRIBING
  | COMPLETED
  | ERROR.

(** The signals of the controller; a call returns those that it emits, in
    order. *)
Inductive signal : Type :=
  | stateChanged
  | transcribedTextChanged
  | errorMessageChanged
  | progressMessageChanged.

(** The fields of a [DictationController].  [_clipboard] is [None] when no
    clipboard was passed, and otherwise holds the text of the clipboard. *)
Record DictationController : Type := mkController {
  _state : DictationState;
  _transcribed_text : str;
  _error_message : str;
  _progress_message : str;
  _clipboard : option str
}.

(** What the recorder and the transcriber do when a call reaches them:
    [None] when the call returns, [Some e] when it raises an exception
    whose [str()] is [e]. *)
Record environment : Type := mkEnvironment {
  recorder_start : option str;
  recorder_stop : option str;
  transcriber_transcribe : option str
}.

Definition __init__ (clipboard : option str) : DictationController :=
  {| _state := IDLE; _transcribed_text := []; _error_message := [];
     _progress_message := []; _clipboard := clipboard |}.

Definition copyToClipboard (self : DictationController)
    : DictationController * list signal :=
  match _clipboard self, _transcribed_text self with
  | Some _, _ :: _ =>
      ({| _state := _state self;
          _transcribed_text := _transcribed_text self;
          _error_message := _error_message self;
          _progress_message := _progress_message self;
          _clipboard := Some (_transcribed_text self) |}, [])
  | _, _ => (self, [])
  end.

Definition _start_recording (env : environment) (self : DictationController)
    : DictationController * list signal :=
  let emitted := [stateChanged; transcribedTextChanged; errorMessageChanged] in
  match recorder_start env with
  | None =>
      ({| _state := RECORDING; _transcribed_text := [];
          _error_message := []; _progress_message := [];
          _clipboard := _clipboard self |}, emitted)
  | Some e =>
      ({| _state := ERROR; _transcribed_text := [];
          _error_message := str_of "Failed to start recording: " ++ e;
          _progress_message := [];
          _clipboard := _clipboard self |},
       emitted ++ [stateChanged; errorMessageChanged])
  end.

Definition _stop_recording (env : environment) (self : DictationController)
    : DictationController * list signal :=
  match recorder_stop env with
  | Some e =>
      ({| _state := ERROR;
          _transcribed_text := _transcribed_text self;
          _error_message := str_of "Failed to stop recording: " ++ e;
          _progress_message := _progress_message self;
          _clipboard := _clipboard self |},
       [stateChanged; errorMessageChanged])
  | None =>
      let emitted := [stateChanged; progressMessageChanged] in
      match transcriber_transcribe env with
      | None =>
          ({| _state := TRANSCRIBING;
              _transcribed_text := _transcribed_text self;
              _error_message := _error_message self;
              _progress_message := str_of "Starting transcription...";
              _clipboard := _clipboard self |}, emitted)
      | Some e =>
          ({| _state := ERROR;
              _transcribed_text := _transcribed_text self;
              _error_message := str_of "Failed to stop recording: " ++ e;
              _progress_message := str_of "Starting transcription...";
              _clipboard := _clipboard self |},
           emitted ++ [stateChanged; errorMessageChanged])
      end
  end.

Definition _reset (self : DictationController)
    : DictationController * list signal :=
  ({| _state := IDLE; _transcribed_text := []; _error_message := [];
      _progress_message := []; _clipboard := _clipboard self |},
   [stateChanged; transcribedTextChanged; errorMessageChanged;
    progressMessageChanged]).

Definition reset (self : DictationController)
    : DictationController * list signal :=
  _reset self.

Definition toggle (env : environment) (self : DictationController)
    : DictationController * list signal :=
  match _state self with
  | IDLE => _start_recording env self
  | RECORDING => _stop_recording env self
  | COMPLETED =>
      let '(self, emitted) := _reset self in
      let '(self, emitted') := _start_recording env self in
      (self, emitted ++ emitted')
  | ERROR => _reset self
  | TRANSCRIBING => (self, [])
  end.

Definition _on_transcription_finished (text : str) (self : DictationController)
    : DictationController * list signal :=
  let self :=
    {| _state := COMPLETED; _transcribed_text := text;
       _error_message := _error_message self; _progress_message := [];
       _clipboard := _clipboard self |} in
  let emitted :=
    [stateChanged; transcribedTextChanged; progressMessageChanged] in
  let '(self, emitted') := copyToClipboard self in
  (self, emitted ++ emitted').

Definition _on_transcription_error (error : str) (self : DictationController)
    : DictationController * list signal :=
  ({| _state := ERROR; _transcribed_text := _transcribed_text self;
      _error_message := error; _progress_message := [];
      _clipboard := _clipboard self |},
   [stateChanged; errorMessageChanged; progressMessageChanged]).

Definition _on_transcription_progress (message : str)
    (self : DictationController) : DictationController * list signal :=
  ({| _state := _state self; _transcribed_text := _transcribed_text self;
      _error_message := _error_message self; _progress_message := message;
      _clipboard := _clipboard self |},
   [progressMessageChanged]).

(** What can happen to a controller: a call of one of its slots, or a
    signal of the transcriber reaching one of its handlers. *)
Inductive event : Type :=
  | Toggle (env : environment)
  | CopyToClipboard
  | Reset
  | TranscriptionFinished (text : str)
  | TranscriptionError (error : str)
  | TranscriptionProgress (message : str).

Definition step (self : DictationController) (ev : event)
    : DictationController * list signal :=
  match ev with
  | Toggle env => toggle env self
  | CopyToClipboard => copyToClipboard self
  | Reset => reset self
  | TranscriptionFinished text => _on_transcription_finished text self
  | TranscriptionError error => _on_transcription_error error self
  | TranscriptionProgress message => _on_transcription_progress message self
  end.

(** The controller after a sequence of events. *)
Definition run (self : DictationController) (evs : list event)
    : DictationController :=
  foldl (fun self ev => (step self ev).1) self evs.

End controller.

(** * The model cache (dictation/transcriber.py) *)

Module transcriber.

(** The module-level variables [_cached_model] and [_cached_model_size].
    A [WhisperModel] is an object made by the constructor; it is named by
    its place in [constructed], the list of the sizes of the models made so
    far. *)
Record module_state : Type := mkModuleState {
  _cached_model : option nat;
  _cached_model_size : option str;
  constructed : list str
}.

Definition initial : module_state :=
  {| _cached_model := None; _cached_model_size := None; constructed := [] |}.

(** [get_model]; [loads size] tells whether [WhisperModel(size, ...)]
    returns, and the result is [None] when it raises. *)
Definition get_model (loads : str -> bool) (model_size : str)
    (st : module_state) : option nat * module_state :=
  match _cached_model st with
  | Some model =>
      if bool_decide (_cached_model_size st = Some model_size)
      then (Some model, st)
      else
        if loads model_size then
          let model := length (constructed st) in
          (Some model,
           {| _cached_model := Some model;
              _cached_model_size := Some model_size;
              constructed := constructed st ++ [model_size] |})
        else (None, st)
  | None =>
      if loads model_size then
        let model := length (constructed st) in
        (Some model,
         {| _cached_model := Some model;
            _cached_model_size := Some model_size;
            constructed := constructed st ++ [model_size] |})
      else (None, st)
  end.

(** The module after a sequence of calls of [get_model]. *)
Definition after_calls (loads : str -> bool) (sizes : list str)
    (st : module_state) : module_state :=
  foldl (fun st model_size => (get_model loads model_size st).2) st sizes.

End transcriber.

(** * The matcher beyond Latin-1 *)

(** Python's [str.lower] maps one code point, U+0130 (capital I with dot
    above), to two: [i] and U+0307 (combining dot above).  [wide] embeds
    [_is_word_boundary] and [fuzzy_match] a second time, line by line as
    above, over the Latin-1 code points and these two.  On this alphabet
    [lower] still works character by character, but it no longer keeps the
    length of a string. *)
Module wide.

Inductive char : Type :=
  | Latin1 (a : ascii)
  | capital_i_dot
  | combining_dot.

#[global] Instance char_eq_dec : EqDecision char.
Proof. solve_decision. Defined.

Abbreviation str := (list char).

(** A Latin-1 string, as a string of this alphabet. *)
Definition latin1 (s : list ascii) : str := Latin1 <$> s.

Definition code (c : char) : N :=
  match c with
  | Latin1 a => N_of_ascii a
  | capital_i_dot => 304
  | combining_dot => 775
  end.

(** U+0130 is an upper-case letter, U+0307 is a mark without case. *)
Definition isupper (c : char) : bool :=
  match c with
  | Latin1 a => isupper a
  | capital_i_dot => true
  | combining_dot => false
  end.

Definition islower (c : char) : bool :=
  match c with
  | Latin1 a => islower a
  | capital_i_dot => false
  | combining_dot => false
  end.

(** [c.lower()], a string *)
Definition lower_char (c : char) : str :=
  match c with
  | Latin1 a => [Latin1 (lower_char a)]
  | capital_i_dot => [Latin1 "i"; combining_dot]
  | combining_dot => [combining_dot]
  end.

(** [s.lower()] *)
Definition lower (s : str) : str := flat_map lower_char s.

Definition WORD_BOUNDARY_CHARS : list char := latin1 (str_of "/_-. ").

Definition _is_word_boundary (target : str) (index : Z) : res bool :=
  if index =? 0 then Ok true
  else
    prev_char <-- list_at target (index - 1) ;;
    if bool_decide (prev_char ∈ WORD_BOUNDARY_CHARS) then Ok true
    else
      curr_char <-- list_at target index ;;
      if islower prev_char && isupper curr_char then Ok true
      else Ok false.

(** Lines 88-99. *)
Definition score_match (target : str) (query_idx target_idx prev_match_idx : Z)
    (score : Z) : res Z :=
  let score :=
    if (query_idx =? 0) && (target_idx =? 0) then score + SCORE_FIRST_CHAR
    else score in
  wb <-- _is_word_boundary target target_idx ;;
  let score := if wb then score + SCORE_WORD_BOUNDARY else score in
  let score :=
    if prev_match_idx >=? 0 then
      let gap := target_idx - prev_match_idx - 1 in
      if gap =? 0 then score + SCORE_CONSECUTIVE
      else score + gap * SCORE_GAP_PENALTY
    else score in
  Ok score.

(** Lines 83-105. *)
Fixpoint match_while (fuel : nat) (target target_lower : str) (target_len : Z)
    (query_idx : Z) (query_char : char) (v : match_vars)
    : res (bool * match_vars) :=
  if mv_target_idx v <? target_len then
    match fuel with
    | O => Raise FuelExhausted
    | S fuel' =>
        c <-- list_at target_lower (mv_target_idx v) ;;
        if bool_decide (c = query_char) then
          let positions := mv_positions v ++ [mv_target_idx v] in
          score <-- score_match target query_idx (mv_target_idx v)
                      (mv_prev_match_idx v) (mv_score v) ;;
          Ok (true, {| mv_positions := positions;
                       mv_score := score;
                       mv_target_idx := mv_target_idx v + 1;
                       mv_prev_match_idx := mv_target_idx v |})
        else
          match_while fuel' target target_lower target_len query_idx query_char
            {| mv_positions := mv_positions v;
               mv_score := mv_score v;
               mv_target_idx := mv_target_idx v + 1;
               mv_prev_match_idx := mv_prev_match_idx v |}
    end
  else Ok (false, v).

(** Lines 80-108. *)
Fixpoint match_for (target target_lower : str) (target_len : Z)
    (query_idx : Z) (query_lower : str) (v : match_vars)
    : res (option match_vars) :=
  match query_lower with
  | [] => Ok (Some v)
  | query_char :: rest =>
      r <-- match_while (Z.to_nat target_len) target target_lower target_len
              query_idx query_char v ;;
      let '(found, v') := r in
      if negb found then Ok None
      else match_for target target_lower target_len (query_idx + 1) rest v'
  end.

Definition fuzzy_match (query target : str) : res (option FuzzyMatch) :=
  match query with
  | [] => Ok (Some {| score := 0; positions := [] |})
  | _ =>
      let query_lower := lower query in
      let target_lower := lower target in
      let query_len := len query in
      let target_len := len target in
      if query_len >? target_len then Ok None
      else
        r <-- match_for target target_lower target_len 0 query_lower
                {| mv_positions := []; mv_score := 0;
                   mv_target_idx := 0; mv_prev_match_idx := -1 |} ;;
        match r with
        | None => Ok None
        | Some v =>
            Ok (Some {| score := mv_score v; positions := mv_positions v |})
        end
  end.

(** [ps] aligns [query] in [target], as [alignment] says it for Latin-1
    strings: strictly increasing offsets into [target], one for each
    character of the query, with
    [target[ps[k]].lower() == query[k].lower()]. *)
Definition alignment (query target : str) (ps : list Z) : Prop :=
  StronglySorted Z.lt ps
  /\ length ps = length query
  /\ forall (k : nat) (p : Z) (q : char),
       ps !! k = Some p -> query !! k = Some q ->
       0 <= p /\ exists t, list_at target p = Ok t /\ lower [t] = lower [q].

End wide.

(** * The vocabulary of the properties *)

(** ** Alignments *)

(** [leftmost tl i qs ps]: [ps] lists, for each character of [qs] in turn,
    the first offset of [tl] at or after the cursor that holds it; the
    cursor starts at [i] and moves just past each match. *)
Inductive leftmost (tl : str) : Z -> str -> list Z -> Prop :=
  | leftmost_nil i : leftmost tl i [] []
  | leftmost_cons i c qs j ps :
      0 <= i <= j ->
      tl !! Z.to_nat j = Some c ->
      (forall k, i <= k < j -> tl !! Z.to_nat k <> Some c) ->
      leftmost tl (j + 1) qs ps ->
      leftmost tl i (c :: qs) (j :: ps).

(** [ps] aligns [query] in [target]: strictly increasing offsets from the
    start of [target], one per query character, each holding that character
    up to case. *)
Definition alignment (query target : str) (ps : list Z) : Prop :=
  StronglySorted Z.lt ps
  /\ length ps = length query
  /\ forall (k : nat) (p : Z) (q : ascii),
       ps !! k = Some p -> query !! k = Some q ->
       0 <= p /\ exists t, str_at target p = Ok t /\ lower [t] = lower [q].


(** ** The two loop nests *)

(** What the variables of [fuzzy_score] see of those of [fuzzy_match]. *)
Definition forget (v : match_vars) : score_vars :=
  {| sv_score := mv_score v;
     sv_target_idx := mv_target_idx v;
     sv_prev_match_idx := mv_prev_match_idx v |}.

(** ** Orders and ranking *)

(** [a <= b] on sort keys is [not (b < a)]. *)
Definition tuple_le (a b : Z * str) : Prop := tuple_lt b a = false.

(** [x] may stand before [y] in a list sorted by [key]. *)
Definition key_le {A K} (lt : K -> K -> bool) (key : A -> K) (x y : A) : Prop :=
  lt (key y) (key x) = false.

(** [x] and [y] have keys that [lt] does not tell apart. *)
Definition same_key {A K} (lt : K -> K -> bool) (key : A -> K) (x y : A) : bool :=
  negb (lt (key x) (key y)) && negb (lt (key y) (key x)).

(** The score of a target, once it is known that no call fails. *)
Definition score_of (query target : str) : option Z :=
  match fuzzy_score query target with
  | Ok r => r
  | Raise _ => None
  end.

(** The pairs that the [for] loop of [rank_matches] collects. *)
Definition scored_of {T} (query : str) (key : T -> str) (items : list T)
    : list (T * Z) :=
  omap (fun item => pair item <$> score_of query (key item)) items.

(** [fuzzy_score(query, key(c))] is a score, not [None]. *)
Definition matches {T} (query : str) (key : T -> str) (c : T) : bool :=
  match fuzzy_score query (key c) with
  | Ok (Some _) => true
  | _ => false
  end.

(** Adjacent results are in rank order: the score goes down, or stays and
    the extracted string does not go down. *)
Definition ranked {T} (key : T -> str) (out : list (T * Z)) : Prop :=
  forall (i : nat) (c1 c2 : T) (s1 s2 : Z),
    out !! i = Some (c1, s1) -> out !! S i = Some (c2, s2) ->
    s1 > s2 \/ (s1 = s2 /\ str_le (key c1) (key c2) = true).

(** ** The controller *)

(** While idle, recording or transcribing, the controller shows neither a
    text nor an error. *)
Definition quiet (self : controller.DictationController) : Prop :=
  match controller._state self with
  | controller.IDLE | controller.RECORDING | controller.TRANSCRIBING =>
      controller._transcribed_text self = []
      /\ controller._error_message self = []
  | _ => True
  end.

(** ** Patterns *)

(** No two characters other than the wildcard stand next to each other. *)
Fixpoint interleaved (p : str) : Prop :=
  match p with
  | a :: (b :: _) as rest =>
      (a = "%"%char \/ b = "%"%char) /\ interleaved rest
  | _ => True
  end.

(** * Properties *)

(** ** Indexing and the error monad *)

Lemma len_nonneg {A} (s : list A) : 0 <= len s.
Proof. unfold len. lia. Qed.

Lemma len_lower (s : str) : len (lower s) = len s.
Proof. unfold len, lower. by rewrite length_map. Qed.


(** An index in range reads the character at that offset. *)
Lemma str_at_in_range (s : str) (i : Z) :
  0 <= i < len s -> exists c, s !! Z.to_nat i = Some c /\ str_at s i = Ok c.
Proof.
  intros Hi. unfold str_at.
  destruct (i <? 0) eqn:E; [lia|]. rewrite E.
  destruct (lookup_lt_is_Some_2 s (Z.to_nat i)) as [c Hc].
  { unfold len in Hi. lia. }
  exists c. by rewrite Hc.
Qed.


Lemma is_word_boundary_total (target : str) (index : Z) :
  0 <= index < len target -> exists b, _is_word_boundary target index = Ok b.
Proof.
  intros Hi. unfold _is_word_boundary.
  destruct (index =? 0) eqn:E0; [by eexists|].
  destruct (str_at_in_range target (index - 1)) as (p & _ & ->); [lia|].
  destruct (str_at_in_range target index) as (c & _ & ->); [lia|].
  simpl. repeat case_match; by eexists.
Qed.

Lemma score_match_total (target : str) (q i prev sc : Z) :
  0 <= i < len target -> exists sc', score_match target q i prev sc = Ok sc'.
Proof.
  intros Hi. unfold score_match.
  destruct (is_word_boundary_total target i Hi) as [b ->].
  by eexists.
Qed.

(** ** The greedy alignment *)


(** The first occurrence of the head of a subsequence leaves the rest of
    the subsequence after it. *)
Lemma sublist_after_first (c : ascii) (qs l : str) (n : nat) :
  l !! n = Some c ->
  (forall k, (k < n)%nat -> l !! k <> Some c) ->
  (c :: qs) `sublist_of` l ->
  qs `sublist_of` drop (S n) l.
Proof.
  revert l. induction n as [|n IH]; intros [|x l] Hn Hfirst Hsub;
    try discriminate.
  - simpl in Hn. injection Hn as ->. simpl. rewrite ?drop_0.
    apply sublist_cons_r in Hsub as [Hsub|(l' & Heq & Hqs)].
    + etrans; [|exact Hsub]. by apply sublist_cons.
    + by injection Heq as ->.
  - simpl in Hn. simpl.
    assert (x <> c) as Hx.
    { intros ->. by apply (Hfirst 0%nat); [lia|]. }
    apply sublist_cons_r in Hsub as [Hsub|(l' & Heq & _)].
    + apply IH; [done| |done].
      intros k Hk. apply (Hfirst (S k)). lia.
    + congruence.
Qed.

Lemma sublist_head_occurs (c : ascii) (qs l : str) :
  (c :: qs) `sublist_of` l -> exists n, l !! n = Some c.
Proof.
  intros Hsub. apply list_elem_of_lookup.
  eapply elem_of_sublist; [|exact Hsub]. left.
Qed.

Section scan.
Context (target target_lower : str) (target_len : Z).
Hypothesis Hlen : target_len = len target.
Hypothesis Hlower : len target_lower = target_len.

(** The [while] loop stops at the first occurrence of [query_char] at or
    after the cursor, or reports that there is none. *)
Lemma match_while_spec (fuel : nat) (q : Z) (c : ascii) (v : match_vars) :
  0 <= mv_target_idx v ->
  (Z.to_nat (target_len - mv_target_idx v) <= fuel)%nat ->
  (exists j sc,
      mv_target_idx v <= j < target_len
      /\ target_lower !! Z.to_nat j = Some c
      /\ (forall k, mv_target_idx v <= k < j ->
                    target_lower !! Z.to_nat k <> Some c)
      /\ match_while fuel target target_lower target_len q c v
         = Ok (true, mkMatchVars (mv_positions v ++ [j]) sc (j + 1) j))
  \/ ((forall k, mv_target_idx v <= k < target_len ->
                 target_lower !! Z.to_nat k <> Some c)
      /\ exists v',
         match_while fuel target target_lower target_len q c v
         = Ok (false, v')).
Proof.
  revert v. induction fuel as [|fuel IH]; intros v Hidx Hfuel; simpl;
    destruct (mv_target_idx v <? target_len) eqn:E;
    try (right; split; [intros k Hk; lia | by eexists]);
    [lia|].
  destruct (str_at_in_range target_lower (mv_target_idx v))
    as (a & Ha & ->); [lia|].
  simpl. destruct (Ascii.eqb a c) eqn:Eac.
  - apply Ascii.eqb_eq in Eac as ->. left.
    destruct (score_match_total target q (mv_target_idx v)
                (mv_prev_match_idx v) (mv_score v)) as [sc ->]; [lia|].
    exists (mv_target_idx v), sc.
    split_and!; [lia..|done|intros k Hk; lia|done].
  - apply Ascii.eqb_neq in Eac.
    set (v' := mkMatchVars _ _ (mv_target_idx v + 1) _).
    assert (forall k, mv_target_idx v <= k < mv_target_idx v' ->
                      target_lower !! Z.to_nat k <> Some c) as Hhere.
    { intros k Hk. simpl in Hk.
      replace k with (mv_target_idx v) by lia. congruence. }
    destruct (IH v') as [(j & sc & Hj & Hc & Hfirst & ->)
                        |(Hnone & v'' & ->)]; simpl; [lia..| |].
    + left. exists j, sc. simpl in *. split_and!; [lia..|done| |done].
      intros k Hk. destruct (decide (k = mv_target_idx v)) as [->|];
        [apply Hhere; simpl; lia | apply Hfirst; lia].
    + right. split; [|by eexists].
      intros k Hk. destruct (decide (k = mv_target_idx v)) as [->|];
        [apply Hhere; simpl; lia | apply Hnone; simpl; lia].
Qed.

(** The [for] loop computes the greedy alignment of the rest of the query
    from the cursor, or reports that the rest is not a subsequence of
    what is left of the target. *)
Lemma match_for_spec (qs : str) (q : Z) (v : match_vars) :
  0 <= mv_target_idx v ->
  (exists ps sc i prev,
      match_for target target_lower target_len q qs v
      = Ok (Some (mkMatchVars (mv_positions v ++ ps) sc i prev))
      /\ leftmost target_lower (mv_target_idx v) qs ps)
  \/ (match_for target target_lower target_len q qs v = Ok None
      /\ ~ qs `sublist_of` drop (Z.to_nat (mv_target_idx v)) target_lower).
Proof.
  revert q v. induction qs as [|c qs IH]; intros q v Hidx; simpl.
  { left. exists [], (mv_score v), (mv_target_idx v), (mv_prev_match_idx v).
    rewrite app_nil_r. destruct v. split; [done|constructor]. }
  destruct (match_while_spec (Z.to_nat target_len) q c v)
    as [(j & sc & Hj & Hc & Hfirst & ->)|(Hnone & v' & ->)];
    [done|lia| |]; simpl.
  - destruct (IH (q + 1) (mkMatchVars (mv_positions v ++ [j]) sc (j + 1) j))
      as [(ps & sc' & i & prev & -> & Hps)|(-> & Hno)]; simpl in *; [lia| |].
    + left. exists (j :: ps), sc', i, prev. split.
      * by rewrite <- app_assoc.
      * constructor; [lia|done..].
    + right. split; [done|]. intros Hsub. apply Hno.
      replace (Z.to_nat (j + 1))
        with (Z.to_nat (mv_target_idx v)
              + S (Z.to_nat j - Z.to_nat (mv_target_idx v)))%nat by lia.
      rewrite <- drop_drop.
      apply (sublist_after_first c); [| |done].
      * rewrite lookup_drop. rewrite <- Hc. f_equal. lia.
      * intros k Hk. rewrite lookup_drop.
        replace (Z.to_nat (mv_target_idx v) + k)%nat
          with (Z.to_nat (mv_target_idx v + Z.of_nat k)) by lia.
        apply Hfirst. lia.
  - right. split; [done|]. intros Hsub.
    apply sublist_head_occurs in Hsub as [n Hn].
    rewrite lookup_drop in Hn.
    apply (Hnone (mv_target_idx v + Z.of_nat n)).
    + apply lookup_lt_Some in Hn. unfold len in *. lia.
    + rewrite <- Hn. f_equal. lia.
Qed.
End scan.






Lemma leftmost_sublist tl i qs ps :
  leftmost tl i qs ps -> qs `sublist_of` drop (Z.to_nat i) tl.
Proof.
  induction 1 as [|i c qs j ps Hij Hc _ _ IH]; [apply sublist_nil_l|].
  rewrite <- (take_drop (Z.to_nat j - Z.to_nat i) (drop (Z.to_nat i) tl)).
  apply sublist_inserts_l. rewrite drop_drop.
  replace (Z.to_nat i + (Z.to_nat j - Z.to_nat i))%nat with (Z.to_nat j) by lia.
  rewrite (drop_S _ _ _ Hc). apply sublist_skip.
  by replace (S (Z.to_nat j)) with (Z.to_nat (j + 1)) by lia.
Qed.


(** [fuzzy_match] on a non-empty query returns the greedy alignment, or
    no match when the query is not a subsequence up to case. *)
Lemma fuzzy_match_spec (q0 : ascii) (query target : str) :
  (exists sc ps,
      fuzzy_match (q0 :: query) target = Ok (Some (mkFuzzyMatch sc ps))
      /\ leftmost (lower target) 0 (lower (q0 :: query)) ps)
  \/ (fuzzy_match (q0 :: query) target = Ok None
      /\ ~ lower (q0 :: query) `sublist_of` lower target).
Proof.
  unfold fuzzy_match.
  destruct (len (q0 :: query) >? len target) eqn:E.
  { right. split; [done|]. intros Hsub%sublist_length.
    unfold lower in Hsub. rewrite !length_map in Hsub.
    unfold len in E. lia. }
  destruct (match_for_spec target (lower target) (len target) eq_refl
              (len_lower target) (lower (q0 :: query)) 0
              (mkMatchVars [] 0 0 (-1)))
    as [(ps & sc & i & prev & -> & Hps)|(-> & Hno)]; simpl in *; [done| |].
  - left. by exists sc, ps.
  - right. by rewrite drop_0 in Hno.
Qed.


(** ** The score-only loops follow the matching loops *)


Lemma score_only_eq (target : str) (q i prev sc : Z) :
  score_only target q i prev sc = score_match target q i prev sc.
Proof. reflexivity. Qed.

Lemma score_while_forget (fuel : nat) target target_lower target_len q c v :
  score_while fuel target target_lower target_len q c (forget v)
  = res_map (fun r => (r.1, forget r.2))
      (match_while fuel target target_lower target_len q c v).
Proof.
  revert v. induction fuel as [|fuel IH]; intros v; simpl.
  - by destruct (mv_target_idx v <? target_len).
  - destruct (mv_target_idx v <? target_len); [|done].
    destruct (str_at target_lower (mv_target_idx v)) as [a|e]; [|done].
    simpl. destruct (Ascii.eqb a c).
    + rewrite score_only_eq.
      by destruct (score_match target q _ _ _).
    + apply (IH (mkMatchVars _ _ _ _)).
Qed.

Lemma score_for_forget target target_lower target_len qs q v :
  score_for target target_lower target_len q qs (forget v)
  = res_map (option_map forget)
      (match_for target target_lower target_len q qs v).
Proof.
  revert q v. induction qs as [|c qs IH]; intros q v; simpl; [done|].
  rewrite score_while_forget.
  destruct (match_while _ target target_lower target_len q c v)
    as [[found v']|e]; [|done].
  simpl. destruct found; simpl; [apply IH|done].
Qed.

Lemma fuzzy_score_forget (query target : str) :
  fuzzy_score query target
  = res_map (option_map score) (fuzzy_match query target).
Proof.
  unfold fuzzy_score, fuzzy_match.
  destruct query as [|q0 query]; [done|].
  destruct (len (q0 :: query) >? len target); [done|].
  change (mkScoreVars 0 0 (-1)) with (forget (mkMatchVars [] 0 0 (-1))).
  rewrite score_for_forget.
  destruct (match_for _ _ _ _ _ _) as [[v|]|e]; done.
Qed.

Lemma fuzzy_match_total (query target : str) :
  exists r, fuzzy_match query target = Ok r.
Proof.
  destruct query as [|q0 query]; [by eexists|].
  destruct (fuzzy_match_spec q0 query target)
    as [(sc & ps & -> & _)|(-> & _)]; by eexists.
Qed.

Lemma fuzzy_score_total (query target : str) :
  exists r, fuzzy_score query target = Ok r.
Proof.
  rewrite fuzzy_score_forget.
  destruct (fuzzy_match_total query target) as [r ->]. by eexists.
Qed.

(** C1. For every query and target, both functions return normally, and
    [fuzzy_score] returns the score of the result of [fuzzy_match]: the
    same integer when there is a match, and no-match ([None]) exactly when
    [fuzzy_match] returns no-match. *)
Theorem fuzzy_score_agrees (query target : str) :
  exists r, fuzzy_match query target = Ok r
            /\ fuzzy_score query target = Ok (score <$> r).
Proof.
  rewrite fuzzy_score_forget.
  destruct (fuzzy_match_total query target) as [r ->]. by exists r.
Qed.

(** C4. The two scenarios of the specification: ["ab"] in ["ab"] scores
    64 = (16 + 32) + 16 at positions (0, 1), and ["fb"] in ["foo_bar"]
    scores 71 = (16 + 32) + (32 + 3 * -3) at positions (0, 4), with the
    constants 16 (first character), 32 (word boundary), 16 (consecutive)
    and -3 (per skipped character). *)
Theorem fuzzy_match_scenarios :
  fuzzy_match (str_of "ab") (str_of "ab")
    = Ok (Some {| score := 64; positions := [0; 1] |})
  /\ fuzzy_match (str_of "fb") (str_of "foo_bar")
    = Ok (Some {| score := 71; positions := [0; 4] |})
  /\ 64 = (SCORE_FIRST_CHAR + SCORE_WORD_BOUNDARY) + SCORE_CONSECUTIVE
  /\ 71 = (SCORE_FIRST_CHAR + SCORE_WORD_BOUNDARY)
          + (SCORE_WORD_BOUNDARY + 3 * SCORE_GAP_PENALTY)
  /\ (SCORE_FIRST_CHAR, SCORE_WORD_BOUNDARY, SCORE_CONSECUTIVE,
      SCORE_GAP_PENALTY) = (16, 32, 16, -3).
Proof. repeat split; vm_compute; reflexivity. Qed.

(** ** Completeness, soundness and minimality of the matcher *)








(** ** The order on sort keys *)

Lemma code_inj (x y : ascii) : code x = code y -> x = y.
Proof.
  unfold code. intros H.
  by rewrite <- (ascii_N_embedding x), <- (ascii_N_embedding y), H.
Qed.

Lemma str_compare_eq (a b : str) : str_compare a b = Eq <-> a = b.
Proof.
  revert b. induction a as [|x a IH]; intros [|y b]; simpl; try done.
  destruct (code x ?= code y)%N eqn:E.
  - apply N.compare_eq_iff, code_inj in E as ->. rewrite IH.
    split; congruence.
  - split; [done|]. intros [= -> _]. by rewrite N.compare_refl in E.
  - split; [done|]. intros [= -> _]. by rewrite N.compare_refl in E.
Qed.

Lemma str_compare_antisym (a b : str) :
  str_compare b a = CompOpp (str_compare a b).
Proof.
  revert b. induction a as [|x a IH]; intros [|y b]; simpl; try done.
  rewrite (N.compare_antisym (code x) (code y)).
  destruct (code x ?= code y)%N; simpl; [apply IH|done..].
Qed.

Lemma str_compare_lt_trans (a b c : str) :
  str_compare a b = Lt -> str_compare b c = Lt -> str_compare a c = Lt.
Proof.
  revert b c. induction a as [|x a IH]; intros [|y b] [|z c]; simpl;
    try done.
  destruct (code x ?= code y)%N eqn:Exy; try done;
    destruct (code y ?= code z)%N eqn:Eyz; try done; intros Hab Hbc.
  - apply N.compare_eq_iff in Exy, Eyz.
    rewrite Exy, Eyz, N.compare_refl. by eapply IH.
  - apply N.compare_eq_iff in Exy. by rewrite Exy, Eyz.
  - apply N.compare_eq_iff in Eyz. by rewrite <- Eyz, Exy.
  - rewrite N.compare_lt_iff in Exy, Eyz.
    assert ((code x ?= code z)%N = Lt) as -> by (apply N.compare_lt_iff; lia).
    done.
Qed.

Lemma str_lt_asym (a b : str) : str_lt a b = true -> str_lt b a = false.
Proof.
  unfold str_lt. rewrite (str_compare_antisym a b).
  by destruct (str_compare a b).
Qed.

Lemma str_le_not_lt (a b : str) : str_le a b = negb (str_lt b a).
Proof.
  unfold str_le, str_lt. rewrite (str_compare_antisym a b).
  by destruct (str_compare a b).
Qed.

Lemma str_le_trans (a b c : str) :
  str_le a b = true -> str_le b c = true -> str_le a c = true.
Proof.
  unfold str_le. intros Hab Hbc.
  destruct (str_compare a b) eqn:Eab; [|clear Hab|done].
  { apply str_compare_eq in Eab as ->. done. }
  destruct (str_compare b c) eqn:Ebc; [|clear Hbc|done].
  { apply str_compare_eq in Ebc as <-. by rewrite Eab. }
  by rewrite (str_compare_lt_trans a b c).
Qed.

Lemma str_le_antisym (a b : str) :
  str_le a b = true -> str_le b a = true -> a = b.
Proof.
  unfold str_le. rewrite (str_compare_antisym a b).
  destruct (str_compare a b) eqn:E; try done.
  intros _ _. by apply str_compare_eq.
Qed.


Lemma tuple_le_alt (a b : Z * str) :
  tuple_le a b <-> a.1 < b.1 \/ (a.1 = b.1 /\ str_le a.2 b.2 = true).
Proof.
  unfold tuple_le, tuple_lt. rewrite str_le_not_lt.
  destruct (b.1 =? a.1) eqn:E.
  - apply Z.eqb_eq in E. rewrite negb_true_iff. split.
    + intros H. right. split; [lia|done].
    + intros [?|[_ H]]; [lia|done].
  - apply Z.eqb_neq in E. rewrite Z.ltb_ge. split.
    + intros H. left. lia.
    + intros [?|[? _]]; lia.
Qed.

Lemma tuple_lt_asym (a b : Z * str) :
  tuple_lt a b = true -> tuple_lt b a = false.
Proof.
  unfold tuple_lt. destruct (a.1 =? b.1) eqn:E.
  - apply Z.eqb_eq in E. rewrite E, Z.eqb_refl. apply str_lt_asym.
  - apply Z.eqb_neq in E. intros H%Z.ltb_lt.
    destruct (b.1 =? a.1) eqn:E'; [apply Z.eqb_eq in E'; lia|].
    apply Z.ltb_ge. lia.
Qed.

Lemma tuple_le_trans (a b c : Z * str) :
  tuple_le a b -> tuple_le b c -> tuple_le a c.
Proof.
  rewrite !tuple_le_alt.
  intros [Hab|[Hab Hab']] [Hbc|[Hbc Hbc']]; [left; lia..|].
  right. split; [lia|]. by eapply str_le_trans.
Qed.

Lemma tuple_le_antisym (a b : Z * str) :
  tuple_le a b -> tuple_le b a -> a = b.
Proof.
  rewrite !tuple_le_alt.
  intros [Hab|[Hab Hab']] [Hba|[Hba Hba']]; try lia.
  destruct a, b; simpl in *. f_equal; [done|]. by apply str_le_antisym.
Qed.

(** ** The sort *)

Section list_sort_facts.
Context {A K : Type} (lt : K -> K -> bool) (key : A -> K).
Hypothesis lt_asym : forall a b, lt a b = true -> lt b a = false.

Local Abbreviation le := (key_le lt key).


Lemma sort_insert_perm (x : A) (l : list A) : sort_insert lt key x l ≡ₚ x :: l.
Proof.
  induction l as [|y l IH]; simpl; [done|].
  destruct (lt (key y) (key x)); [|done].
  by rewrite IH, Permutation_swap.
Qed.

Lemma list_sort_perm (l : list A) : list_sort lt key l ≡ₚ l.
Proof.
  induction l as [|x l IH]; simpl; [done|].
  by rewrite sort_insert_perm, IH.
Qed.

Lemma sort_insert_hd (x y : A) (l : list A) :
  le y x -> HdRel le y l -> HdRel le y (sort_insert lt key x l).
Proof.
  intros Hyx Hyl. destruct l as [|z l]; simpl; [by constructor|].
  destruct (lt (key z) (key x)); constructor; [|done].
  by inv Hyl.
Qed.

Lemma sort_insert_sorted (x : A) (l : list A) :
  Sorted le l -> Sorted le (sort_insert lt key x l).
Proof.
  induction 1 as [|y l Hl IH Hy]; simpl; [by repeat constructor|].
  destruct (lt (key y) (key x)) eqn:E.
  - constructor; [done|]. apply sort_insert_hd; [|done].
    by apply lt_asym.
  - repeat constructor; done.
Qed.

Lemma list_sort_sorted (l : list A) : Sorted le (list_sort lt key l).
Proof.
  induction l as [|x l IH]; simpl; [constructor|].
  by apply sort_insert_sorted.
Qed.

(** The sort is stable: elements with one and the same key keep the
    order they had. *)
Lemma sort_insert_stable (P : A -> bool) (x : A) (l : list A) :
  (forall y, P x = true -> P y = true -> lt (key y) (key x) = false) ->
  List.filter P (sort_insert lt key x l) = List.filter P (x :: l).
Proof.
  intros Hsame. induction l as [|y l IH]; simpl; [done|].
  destruct (lt (key y) (key x)) eqn:E; simpl; [|done].
  simpl in IH. rewrite IH.
  destruct (P x) eqn:Px, (P y) eqn:Py; try done.
  by rewrite (Hsame y) in E.
Qed.

Lemma list_sort_stable (P : A -> bool) (l : list A) :
  (forall x y, P x = true -> P y = true -> lt (key y) (key x) = false) ->
  List.filter P (list_sort lt key l) = List.filter P l.
Proof.
  intros Hsame. induction l as [|x l IH]; simpl; [done|].
  rewrite sort_insert_stable by (intros y; apply Hsame).
  simpl. by rewrite IH.
Qed.

Hypothesis lt_trans :
  forall a b c, lt b a = false -> lt c b = false -> lt c a = false.

#[local] Instance le_transitive : Transitive le.
Proof. intros x y z. unfold key_le. apply lt_trans. Qed.

Lemma same_key_refl (x : A) : same_key lt key x x = true.
Proof.
  unfold same_key. destruct (lt (key x) (key x)) eqn:E; [|done].
  by rewrite (lt_asym _ _ E) in E.
Qed.

(** A sorted list is determined by the sublists of its elements of each
    key: two sorts that are both stable return the same list. *)
Lemma stable_sorted_unique (l1 l2 : list A) :
  Sorted le l1 -> Sorted le l2 ->
  (forall x, List.filter (same_key lt key x) l1
             = List.filter (same_key lt key x) l2) ->
  l1 = l2.
Proof.
  intros H1%Sorted_StronglySorted; [|apply _]. revert l2.
  induction H1 as [|a l1 _ IH Ha]; intros l2 H2 Hsame.
  { destruct l2 as [|b l2]; [done|]. specialize (Hsame b). simpl in Hsame.
    by rewrite same_key_refl in Hsame. }
  destruct l2 as [|b l2].
  { specialize (Hsame a). simpl in Hsame. by rewrite same_key_refl in Hsame. }
  apply Sorted_StronglySorted in H2; [|apply _].
  apply StronglySorted_inv in H2 as [H2 Hb].
  assert (le b a) as Hba.
  { assert (In a (b :: l2)) as [->|Hin].
    { eapply (proj1 (filter_In (same_key lt key a) a (b :: l2))).
      rewrite <- Hsame. simpl. rewrite same_key_refl. by left. }
    - pose proof (same_key_refl a) as Hr. unfold same_key in Hr.
      unfold key_le. by destruct (lt (key a) (key a)).
    - rewrite Forall_forall in Hb. apply Hb. by apply list_elem_of_In. }
  assert (le a b) as Hab.
  { assert (In b (a :: l1)) as [->|Hin].
    { eapply (proj1 (filter_In (same_key lt key b) b (a :: l1))).
      rewrite Hsame. simpl. rewrite same_key_refl. by left. }
    - done.
    - rewrite Forall_forall in Ha. apply Ha. by apply list_elem_of_In. }
  assert (same_key lt key a b = true) as Hk.
  { unfold same_key, key_le in *. by rewrite Hab, Hba. }
  assert (a = b) as ->.
  { specialize (Hsame a). simpl in Hsame.
    rewrite same_key_refl, Hk in Hsame. by injection Hsame. }
  f_equal. apply IH; [by apply StronglySorted_Sorted|].
  intros x. specialize (Hsame x). simpl in Hsame.
  destruct (same_key lt key x b); [by injection Hsame|done].
Qed.

(** So [list_sort] is what any stable sort returns. *)
Lemma list_sort_unique (l l' : list A) :
  Sorted le l' ->
  (forall x, List.filter (same_key lt key x) l'
             = List.filter (same_key lt key x) l) ->
  l' = list_sort lt key l.
Proof.
  intros Hsorted Hstable. apply stable_sorted_unique; [done| |].
  - apply list_sort_sorted.
  - intros x. rewrite Hstable. symmetry. apply list_sort_stable.
    intros y z [Hy1 Hy2]%andb_prop [Hz1 Hz2]%andb_prop.
    apply negb_true_iff in Hy1, Hy2, Hz1, Hz2.
    by apply (lt_trans _ (key x)).
Qed.
End list_sort_facts.

Lemma Sorted_adjacent {A} (R : A -> A -> Prop) (l : list A) (i : nat) (a b : A) :
  Sorted R l -> l !! i = Some a -> l !! S i = Some b -> R a b.
Proof.
  intros Hl. revert i. induction Hl as [|x l Hl IH Hx]; intros i Ha Hb;
    [done|].
  destruct i as [|i]; simpl in *.
  - injection Ha as ->. destruct Hx as [|y l Hxy]; [done|].
    simpl in Hb. by injection Hb as ->.
  - by eapply IH.
Qed.

(** ** The ranker *)

Section rank_facts.
Context {T : Type} (query : str) (key : T -> str).


Lemma rank_for_spec (items : list T) (scored : list (T * Z)) :
  rank_for query key items scored = Ok (scored ++ scored_of query key items).
Proof.
  revert scored. induction items as [|item items IH]; intros scored; simpl.
  { by rewrite app_nil_r. }
  unfold scored_of. simpl. unfold score_of at 1.
  destruct (fuzzy_score_total query (key item)) as [[s|] ->]; simpl.
  - rewrite IH. by rewrite <- app_assoc.
  - apply IH.
Qed.

Lemma scored_of_score (items : list T) (c : T) (s : Z) :
  (c, s) ∈ scored_of query key items -> c ∈ items /\ score_of query (key c) = Some s.
Proof.
  unfold scored_of. rewrite list_elem_of_omap.
  intros (item & Hin & Heq).
  destruct (score_of query (key item)) eqn:E; [|done].
  simpl in Heq. injection Heq as <- <-. done.
Qed.

Lemma scored_of_length (items : list T) :
  (length (scored_of query key items) <= length items)%nat.
Proof.
  induction items as [|item items IH]; simpl; [done|].
  unfold scored_of in *. simpl.
  destruct (score_of query (key item)); simpl; lia.
Qed.

(** [rank_matches] on a non-empty query. *)
Lemma rank_matches_nonempty (items : list T) (limit : Z) :
  query <> [] ->
  rank_matches query items key limit
  = Ok (slice_to (list_sort tuple_lt (sort_key key) (scored_of query key items)) limit).
Proof.
  intros Hne. unfold rank_matches. rewrite rank_for_spec. simpl.
  by destruct query.
Qed.
End rank_facts.

Lemma slice_to_nonneg {A} (l : list A) (stop : Z) :
  0 <= stop -> slice_to l stop = take (Z.to_nat stop) l.
Proof. intros H. unfold slice_to. by destruct (stop <? 0) eqn:E; [lia|]. Qed.

Lemma slice_to_neg {A} (l : list A) (stop : Z) :
  stop < 0 -> slice_to l stop = take (length l - Z.to_nat (- stop)) l.
Proof.
  intros H. unfold slice_to, len. destruct (stop <? 0) eqn:E; [|lia].
  f_equal. lia.
Qed.

Lemma slice_to_all {A} (l : list A) (stop : Z) :
  len l <= stop -> slice_to l stop = l.
Proof.
  intros H. pose proof (len_nonneg l). rewrite slice_to_nonneg by lia.
  apply take_ge. unfold len in *. lia.
Qed.


#[local] Instance sort_key_le_trans {T} (key : T -> str) :
  Transitive (key_le tuple_lt (sort_key key)).
Proof. intros x y z. unfold key_le. apply tuple_le_trans. Qed.

Lemma sorted_ranked {T} (key : T -> str) (l : list (T * Z)) :
  Sorted (key_le tuple_lt (sort_key key)) l -> ranked key l.
Proof.
  intros Hl i c1 c2 s1 s2 H1 H2.
  pose proof (Sorted_adjacent _ _ _ _ _ Hl H1 H2) as Hle.
  apply tuple_le_alt in Hle. unfold sort_key in Hle. simpl in Hle.
  destruct Hle as [?|[? ?]]; [left; lia|right; split; [lia|done]].
Qed.

Lemma ranked_take {T} (key : T -> str) (l : list (T * Z)) (n : nat) :
  ranked key l -> ranked key (take n l).
Proof.
  intros Hl i c1 c2 s1 s2 [H1 _]%lookup_take_Some [H2 _]%lookup_take_Some.
  by eapply Hl.
Qed.

(** C3, as the code has it.  For every query and every non-negative limit
    (the default, 50, is one) [rank_matches] returns at most [limit] pairs;
    when the query is not empty, adjacent pairs [(c1, s1)], [(c2, s2)] of
    the result satisfy [s1 > s2], or [s1 == s2] and [key(c1) <= key(c2)].
    (The empty query returns the candidates in the order given.) *)
Theorem rank_matches_sorted {T} (query : str) (items : list T)
    (key : T -> str) (limit : Z) :
  0 <= limit ->
  exists out, rank_matches query items key limit = Ok out
              /\ len out <= limit
              /\ (query <> [] -> ranked key out).
Proof.
  intros Hlimit. destruct (decide (query = [])) as [->|Hne].
  - eexists. split; [done|]. split; [|done].
    unfold len. rewrite length_map, slice_to_nonneg, length_take by done. lia.
  - rewrite rank_matches_nonempty by done. eexists. split; [done|].
    rewrite slice_to_nonneg by done. split.
    + unfold len. rewrite length_take. lia.
    + intros _. apply ranked_take, sorted_ranked, list_sort_sorted.
      apply tuple_lt_asym.
Qed.

Lemma rank_matches_sorted_witness :
  0 <= DEFAULT_LIMIT
  /\ exists out,
       rank_matches_default (str_of "a")
         [str_of "xa"; str_of "ab"; str_of "b"] id = Ok out
       /\ len out <= DEFAULT_LIMIT
       /\ (str_of "a" <> [] -> ranked id out).
Proof.
  split; [vm_compute; discriminate|].
  apply (rank_matches_sorted (str_of "a")
           [str_of "xa"; str_of "ab"; str_of "b"] id DEFAULT_LIMIT).
  vm_compute. discriminate.
Defined.

(** C3 as stated fails on the empty query: the candidates come back in the
    order given, here ["b"] before ["a"] with equal scores. *)
Lemma rank_matches_sorted_counterexample :
  rank_matches_default (str_of "") [str_of "b"; str_of "a"] id
  = Ok [(str_of "b", 0); (str_of "a", 0)]
  /\ ~ ranked id [(str_of "b", 0); (str_of "a", 0)].
Proof.
  split; [reflexivity|]. intros H.
  destruct (H 0%nat (str_of "b") (str_of "a") 0 0 eq_refl eq_refl)
    as [?|[_ ?]]; [lia|discriminate].
Qed.

(** C8. With the empty query and a non-negative limit, [rank_matches]
    returns [min(limit, len(items))] pairs, the [i]-th being the [i]-th
    candidate with score 0. *)
Theorem rank_matches_browse {T} (items : list T) (key : T -> str) (limit : Z) :
  0 <= limit ->
  exists out, rank_matches [] items key limit = Ok out
              /\ len out = Z.min limit (len items)
              /\ forall i : nat, (i < length out)%nat ->
                   out !! i = (fun c => (c, 0)) <$> items !! i.
Proof.
  intros Hlimit. eexists. split; [done|].
  rewrite slice_to_nonneg by done. split.
  - unfold len. rewrite length_map, length_take. lia.
  - intros i Hi. rewrite length_map, length_take in Hi.
    rewrite list_lookup_fmap, lookup_take_lt by lia. done.
Qed.

Lemma rank_matches_browse_witness :
  0 <= 2
  /\ exists out,
       rank_matches [] [str_of "x"; str_of "y"; str_of "z"] id 2 = Ok out
       /\ len out = Z.min 2 (len [str_of "x"; str_of "y"; str_of "z"])
       /\ forall i : nat, (i < length out)%nat ->
            out !! i
            = (fun c => (c, 0)) <$> [str_of "x"; str_of "y"; str_of "z"] !! i.
Proof.
  split; [lia|].
  apply (rank_matches_browse [str_of "x"; str_of "y"; str_of "z"] id 2).
  lia.
Defined.

(** C6, as the code has it.  A negative limit [-k] is not rejected:
    [rank_matches] returns normally, with the sequence that it returns when
    nothing is cut off, less its last [k] pairs. *)
Theorem rank_matches_negative_limit {T} (query : str) (items : list T)
    (key : T -> str) (limit : Z) :
  limit < 0 ->
  exists full,
    rank_matches query items key (len items) = Ok full
    /\ rank_matches query items key limit
       = Ok (take (length full - Z.to_nat (- limit)) full).
Proof.
  intros Hlimit. destruct (decide (query = [])) as [->|Hne].
  - eexists. split; [done|]. simpl.
    rewrite (slice_to_all items (len items)), (slice_to_neg items limit)
      by lia.
    by rewrite length_map, fmap_take.
  - rewrite !rank_matches_nonempty by done. eexists. split; [done|].
    rewrite (slice_to_all _ (len items)), (slice_to_neg _ limit); [done|lia|].
    unfold len. rewrite (Permutation_length (list_sort_perm _ _ _)).
    pose proof (scored_of_length query key items). lia.
Qed.

Lemma rank_matches_negative_limit_witness :
  -1 < 0
  /\ exists full,
       rank_matches (str_of "a") [str_of "xa"; str_of "ab"; str_of "b"] id
         (len [str_of "xa"; str_of "ab"; str_of "b"]) = Ok full
       /\ rank_matches (str_of "a") [str_of "xa"; str_of "ab"; str_of "b"] id
            (-1)
          = Ok (take (length full - Z.to_nat (- -1)) full).
Proof.
  split; [lia|].
  apply (rank_matches_negative_limit (str_of "a")
           [str_of "xa"; str_of "ab"; str_of "b"] id (-1)).
  lia.
Defined.

(** C6 as stated fails: with limit [-1] the call returns a result, the
    candidates but the last, and raises nothing. *)
Lemma rank_matches_negative_limit_counterexample :
  -1 < 0
  /\ rank_matches (str_of "") [str_of "x"; str_of "y"; str_of "z"] id (-1)
     = Ok [(str_of "x", 0); (str_of "y", 0)]
  /\ rank_matches (str_of "a") [str_of "xa"; str_of "ab"; str_of "b"] id (-1)
     = Ok [(str_of "ab", 48)]
  /\ forall e,
       rank_matches (str_of "") [str_of "x"; str_of "y"; str_of "z"] id (-1)
       <> Raise e.
Proof. split_and!; [lia|reflexivity|vm_compute; reflexivity|done]. Qed.

(** C7, as the code has it.  For a non-empty query and a non-negative
    limit, two orderings of the same candidates give the same result
    provided that candidates with the same extracted string are the same
    candidate. *)
Theorem rank_matches_permutation {T} (query : str) (items1 items2 : list T)
    (key : T -> str) (limit : Z) :
  query <> [] ->
  0 <= limit ->
  items1 ≡ₚ items2 ->
  (forall c1 c2, c1 ∈ items1 -> c2 ∈ items1 -> key c1 = key c2 -> c1 = c2) ->
  rank_matches query items1 key limit = rank_matches query items2 key limit.
Proof.
  intros Hne _ Hperm Hinj. rewrite !rank_matches_nonempty by done.
  do 2 f_equal.
  apply (Sorted_unique_strong (key_le tuple_lt (sort_key key))).
  - intros [c1 s1] [c2 s2] H1 H2 H12 H21.
    rewrite list_sort_perm in H1, H2.
    apply scored_of_score in H1 as [H1 _], H2 as [H2 _].
    rewrite <- Hperm in H2.
    pose proof (tuple_le_antisym _ _ H12 H21) as Heq.
    unfold sort_key in Heq. simpl in Heq. injection Heq as Hs Hk.
    rewrite (Hinj c1 c2 H1 H2 Hk). f_equal. lia.
  - apply list_sort_sorted, tuple_lt_asym.
  - apply list_sort_sorted, tuple_lt_asym.
  - rewrite !list_sort_perm. unfold scored_of. by rewrite Hperm.
Qed.

Lemma rank_matches_permutation_witness :
  str_of "a" <> []
  /\ 0 <= 50
  /\ [str_of "xa"; str_of "ab"] ≡ₚ [str_of "ab"; str_of "xa"]
  /\ (forall c1 c2 : str,
        c1 ∈ [str_of "xa"; str_of "ab"] -> c2 ∈ [str_of "xa"; str_of "ab"] ->
        id c1 = id c2 -> c1 = c2)
  /\ rank_matches (str_of "a") [str_of "xa"; str_of "ab"] id 50
     = rank_matches (str_of "a") [str_of "ab"; str_of "xa"] id 50.
Proof.
  split; [vm_compute; discriminate|].
  split; [lia|].
  split; [apply Permutation_swap|].
  split; [intros c1 c2 _ _ H; exact H|].
  apply (rank_matches_permutation (str_of "a")
           [str_of "xa"; str_of "ab"] [str_of "ab"; str_of "xa"] id 50).
  - vm_compute. discriminate.
  - lia.
  - apply Permutation_swap.
  - intros c1 c2 _ _ H. exact H.
Defined.

(** C7 as stated fails: two candidates with the same extracted string keep
    the order in which they were given. *)
Lemma rank_matches_permutation_counterexample :
  [(1, str_of "ab"); (2, str_of "ab")] ≡ₚ [(2, str_of "ab"); (1, str_of "ab")]
  /\ rank_matches (str_of "a") [(1, str_of "ab"); (2, str_of "ab")] snd 50
     = Ok [((1, str_of "ab"), 48); ((2, str_of "ab"), 48)]
  /\ rank_matches (str_of "a") [(2, str_of "ab"); (1, str_of "ab")] snd 50
     = Ok [((2, str_of "ab"), 48); ((1, str_of "ab"), 48)]
  /\ rank_matches (str_of "a") [(1, str_of "ab"); (2, str_of "ab")] snd 50
     <> rank_matches (str_of "a") [(2, str_of "ab"); (1, str_of "ab")] snd 50.
Proof.
  split_and!; [apply Permutation_swap|vm_compute; reflexivity..|].
  vm_compute. discriminate.
Qed.

(** ** The prefilter *)


Lemma join_chars (c : ascii) (s : str) :
  join (str_of "%") (chars (c :: s)) ++ str_of "%"
  = flat_map (fun c => [c; "%"%char]) (c :: s).
Proof.
  revert c. induction s as [|d s IH]; intros c; [done|].
  change (join (str_of "%") (chars (c :: d :: s)))
    with (c :: "%"%char :: join (str_of "%") (chars (d :: s))).
  simpl in *. by rewrite IH.
Qed.

Lemma interleaved_flat_map (s : str) :
  interleaved ("%"%char :: flat_map (fun c => [c; "%"%char]) s).
Proof.
  induction s as [|c s IH]; simpl; [done|].
  split; [by left|]. split; [by right|]. exact IH.
Qed.

(** X21.  The second half of C5 holds: whatever the query, the pattern has
    a wildcard between any two other characters. *)
Lemma build_sql_pattern_interleaved (query : str) :
  interleaved (build_sql_pattern query).
Proof.
  unfold build_sql_pattern. destruct query as [|q0 query]; [done|].
  destruct (lower _) as [|c s] eqn:E; [by split; [left|]|].
  change (str_of "%" ++ ?x ++ str_of "%") with ("%"%char :: (x ++ str_of "%")).
  rewrite join_chars. apply interleaved_flat_map.
Qed.

(** X20.  The pattern for a query of Latin-1 characters, character by
    character.  It starts with [%]; then
    every character of the query other than [%] and [_] gives its lower-case
    form and [%], and each [%] or [_] gives the escape marker, [%], the
    character itself and [%]: the marker is followed by an interleaved
    wildcard, not by the character it was meant for. *)
Lemma build_sql_pattern_shape (q0 : ascii) (query : str) :
  build_sql_pattern (q0 :: query)
  = "%"%char
    :: flat_map (fun c =>
         if Ascii.eqb c "%" || Ascii.eqb c "_"
         then ["\"%char; "%"%char; c; "%"%char]
         else [lower_char c; "%"%char]) (q0 :: query).
Proof.
  unfold build_sql_pattern.
  set (query' := q0 :: query).
  assert (forall s : str,
    flat_map (fun c => [c; "%"%char])
      (lower (replace "_" (str_of "\_") (replace "%" (str_of "\%") s)))
    = flat_map (fun c =>
        if Ascii.eqb c "%" || Ascii.eqb c "_"
        then ["\"%char; "%"%char; c; "%"%char]
        else [lower_char c; "%"%char]) s) as Hshape.
  { induction s as [|c s IH]; [done|]. simpl.
    destruct (Ascii.eqb c "%") eqn:E1.
    - apply Ascii.eqb_eq in E1 as ->. simpl. by rewrite <- IH.
    - simpl. destruct (Ascii.eqb c "_") eqn:E2; simpl.
      + apply Ascii.eqb_eq in E2 as ->. simpl. by rewrite <- IH.
      + by rewrite <- IH. }
  rewrite <- Hshape.
  destruct (lower _) as [|c s] eqn:E.
  { exfalso. subst query'. simpl in E.
    destruct (Ascii.eqb q0 "%"); simpl in E; [done|].
    destruct (Ascii.eqb q0 "_"); simpl in E; done. }
  change (str_of "%" ++ ?x ++ str_of "%") with ("%"%char :: (x ++ str_of "%")).
  by rewrite join_chars.
Qed.

(** C5 fails on the query ["_"].  The pattern is [%\%_%]: the escape marker
    stands before an interleaved wildcard, and the [_] of the query follows
    that wildcard, with no marker before it. *)
Theorem build_sql_pattern_underscore :
  build_sql_pattern (str_of "_") = str_of "%\%_%"
  /\ build_sql_pattern (str_of "_") !! 1%nat = Some "\"%char
  /\ build_sql_pattern (str_of "_") !! 2%nat = Some "%"%char
  /\ build_sql_pattern (str_of "_") !! 3%nat = Some "_"%char
  /\ build_sql_pattern (str_of "ab") = str_of "%a%b%".
Proof. split_and!; reflexivity. Qed.

(** * Further properties of the matcher *)

(** X1. On Latin-1 strings: for a non-empty query, [fuzzy_match] and
    [fuzzy_score] report no-match exactly when the query is not a
    subsequence of the target up to case. *)
Theorem fuzzy_match_none_iff (query target : str) :
  query <> [] ->
  (fuzzy_match query target = Ok None
   <-> ~ lower query `sublist_of` lower target)
  /\ (fuzzy_score query target = Ok None
      <-> ~ lower query `sublist_of` lower target).
Proof.
  intros Hne. destruct query as [|q0 query]; [done|].
  rewrite fuzzy_score_forget.
  destruct (fuzzy_match_spec q0 query target)
    as [(sc & ps & -> & Hps)|(-> & Hno)]; simpl.
  - apply leftmost_sublist in Hps. rewrite drop_0 in Hps.
    split; (split; [done|intros H; by destruct H]).
  - split; done.
Qed.

Lemma fuzzy_match_none_iff_witness :
  str_of "ba" <> []
  /\ (fuzzy_match (str_of "ba") (str_of "abc") = Ok None
      <-> ~ lower (str_of "ba") `sublist_of` lower (str_of "abc"))
  /\ (fuzzy_score (str_of "ba") (str_of "abc") = Ok None
      <-> ~ lower (str_of "ba") `sublist_of` lower (str_of "abc")).
Proof.
  split; [vm_compute; discriminate|].
  apply (fuzzy_match_none_iff (str_of "ba") (str_of "abc")).
  vm_compute. discriminate.
Defined.

(** X2. The case of the query does not matter: two queries with the same
    lower-cased form give the same result, score included. *)
Theorem fuzzy_match_query_case (query1 query2 target : str) :
  lower query1 = lower query2 ->
  fuzzy_match query1 target = fuzzy_match query2 target.
Proof.
  intros Heq.
  assert (len query1 = len query2) as Hlen
    by (rewrite <- (len_lower query1), <- (len_lower query2); by rewrite Heq).
  unfold fuzzy_match. rewrite <- Heq, <- Hlen.
  destruct query1 as [|a query1], query2 as [|b query2]; done.
Qed.

Lemma fuzzy_match_query_case_witness :
  lower (str_of "FB") = lower (str_of "fb")
  /\ fuzzy_match (str_of "FB") (str_of "foo_bar")
     = fuzzy_match (str_of "fb") (str_of "foo_bar").
Proof.
  split; [vm_compute; reflexivity|].
  apply (fuzzy_match_query_case (str_of "FB") (str_of "fb") (str_of "foo_bar")).
  vm_compute. reflexivity.
Defined.

Lemma leftmost_functional tl i qs ps1 ps2 :
  leftmost tl i qs ps1 -> leftmost tl i qs ps2 -> ps1 = ps2.
Proof.
  intros H1. revert ps2.
  induction H1 as [|i c qs j ps Hij Hc Hfirst _ IH]; intros ps2 H2; inv H2;
    [done|].
  match goal with
  | Hc' : tl !! Z.to_nat ?j' = Some c, Hf' : forall k, i <= k < ?j' -> _ |- _ =>
      assert (j = j') as <-
        by (destruct (Z.lt_trichotomy j j') as [?|[?|?]];
            [exfalso; apply (Hf' j); [lia|done]
            |done
            |exfalso; apply (Hfirst j'); [lia|done]])
  end.
  f_equal. by apply IH.
Qed.

(** X3. On Latin-1 strings the case of the target matters to the score
    only: two targets with the same lower-cased form match the same
    queries, at the same positions. *)
Theorem fuzzy_match_target_case (query target1 target2 : str) :
  lower target1 = lower target2 ->
  res_map (option_map positions) (fuzzy_match query target1)
  = res_map (option_map positions) (fuzzy_match query target2).
Proof.
  intros Heq. destruct query as [|q0 query]; [done|].
  destruct (fuzzy_match_spec q0 query target1)
    as [(sc1 & ps1 & -> & H1)|(-> & H1)];
    destruct (fuzzy_match_spec q0 query target2)
      as [(sc2 & ps2 & -> & H2)|(-> & H2)]; simpl.
  - rewrite Heq in H1. by rewrite (leftmost_functional _ _ _ _ _ H1 H2).
  - apply leftmost_sublist in H1. rewrite drop_0, Heq in H1. done.
  - apply leftmost_sublist in H2. rewrite drop_0, <- Heq in H2. done.
  - done.
Qed.

Lemma fuzzy_match_target_case_witness :
  lower (str_of "fooBar") = lower (str_of "foobar")
  /\ res_map (option_map positions) (fuzzy_match (str_of "fb") (str_of "fooBar"))
     = res_map (option_map positions)
         (fuzzy_match (str_of "fb") (str_of "foobar"))
  /\ res_map (option_map score) (fuzzy_match (str_of "fb") (str_of "fooBar"))
     <> res_map (option_map score)
          (fuzzy_match (str_of "fb") (str_of "foobar")).
Proof.
  split; [vm_compute; reflexivity|].
  split; [|vm_compute; discriminate].
  apply (fuzzy_match_target_case (str_of "fb") (str_of "fooBar")
           (str_of "foobar")).
  vm_compute. reflexivity.
Defined.

(** ** Scores *)

(** What a successful run of the [while] loop leaves in the variables. *)
Lemma match_while_found fuel target target_lower target_len q c v v' :
  match_while fuel target target_lower target_len q c v = Ok (true, v') ->
  exists j,
    mv_target_idx v <= j < target_len
    /\ mv_positions v' = mv_positions v ++ [j]
    /\ mv_target_idx v' = j + 1
    /\ mv_prev_match_idx v' = j
    /\ score_match target q j (mv_prev_match_idx v) (mv_score v)
       = Ok (mv_score v').
Proof.
  revert v. induction fuel as [|fuel IH]; intros v; simpl;
    destruct (mv_target_idx v <? target_len) eqn:E; try done.
  destruct (str_at target_lower (mv_target_idx v)) as [a|e]; [|done].
  simpl. destruct (Ascii.eqb a c).
  - destruct (score_match target q _ _ _) as [sc|e] eqn:Esc; [|done].
    simpl. intros [= <-]. exists (mv_target_idx v). simpl.
    split_and!; [lia..|done|done|done|done].
  - intros H. apply IH in H as (j & Hj & Hrest). simpl in *.
    exists j. split; [lia|done].
Qed.

(** One match adds at most 48 to the score, and takes at most 3 for each
    character skipped since the previous match. *)
Lemma score_match_bounds target q j prev sc sc' :
  score_match target q j prev sc = Ok sc' ->
  -1 <= prev < j ->
  sc' <= sc + 48
  /\ sc - 3 * (j - prev - 1) <= sc'
  /\ (prev = -1 -> sc <= sc').
Proof.
  unfold score_match, SCORE_FIRST_CHAR, SCORE_WORD_BOUNDARY,
    SCORE_CONSECUTIVE, SCORE_GAP_PENALTY.
  destruct (_is_word_boundary target j) as [wb|e]; [|done]. simpl.
  intros [= <-] Hprev.
  destruct ((q =? 0) && (j =? 0)) eqn:E1, wb, (prev >=? 0) eqn:E2,
    (j - prev - 1 =? 0) eqn:E3; lia.
Qed.

Lemma match_for_score target target_lower target_len qs q v v' :
  match_for target target_lower target_len q qs v = Ok (Some v') ->
  -1 <= mv_prev_match_idx v < mv_target_idx v ->
  (0 <= mv_prev_match_idx v -> mv_target_idx v = mv_prev_match_idx v + 1) ->
  mv_target_idx v <= target_len ->
  mv_score v' <= mv_score v + 48 * len qs
  /\ mv_score v - 3 * (mv_target_idx v' - mv_target_idx v - len qs)
     <= mv_score v'
  /\ mv_target_idx v' <= target_len.
Proof.
  revert q v. induction qs as [|c qs IH]; intros q v; simpl.
  { intros [= <-] _ _ Hle. unfold len. simpl. lia. }
  destruct (match_while _ target target_lower target_len q c v)
    as [[found v1]|e] eqn:Ewhile; [|done].
  simpl. destruct found; [|done]. simpl. intros Hfor Hprev Hidx Hle.
  apply match_while_found in Ewhile as (j & Hj & _ & Hidx1 & Hprev1 & Hsc).
  apply score_match_bounds in Hsc as (Hup & Hlow & Hfirst); [|lia].
  apply IH in Hfor as (Hup' & Hlow' & Hle'); [|lia..].
  unfold len in *. simpl length. rewrite Hidx1 in *.
  split_and!; [lia| |lia].
  destruct (decide (mv_prev_match_idx v = -1)) as [Hm|Hm].
  - specialize (Hfirst Hm). lia.
  - assert (0 <= mv_prev_match_idx v) as H0 by lia. specialize (Hidx H0). lia.
Qed.

(** X4. The score of a match is at most 48 for each character of the
    query, and at least -3 for each character of the target that the query
    leaves over. *)
Theorem fuzzy_match_score_bounds (query target : str) (m : FuzzyMatch) :
  fuzzy_match query target = Ok (Some m) ->
  -3 * (len target - len query) <= score m <= 48 * len query.
Proof.
  unfold fuzzy_match. destruct query as [|q0 query].
  { intros [= <-]. simpl. pose proof (len_nonneg target). unfold len. simpl.
    lia. }
  destruct (len (q0 :: query) >? len target) eqn:E; [done|].
  destruct (match_for _ _ _ _ _ _) as [[v|]|e] eqn:Efor; try done.
  simpl. intros [= <-]. simpl.
  apply match_for_score in Efor as (Hup & Hlow & Hle); simpl in *;
    [|lia|lia|apply len_nonneg].
  pose proof (len_lower (q0 :: query)) as Hq. simpl in Hq. lia.
Qed.

Lemma fuzzy_match_score_bounds_witness :
  fuzzy_match (str_of "Ab") (str_of "aB")
  = Ok (Some {| score := 96; positions := [0; 1] |})
  /\ -3 * (len (str_of "aB") - len (str_of "Ab")) <= 96
     <= 48 * len (str_of "Ab").
Proof.
  split; [vm_compute; reflexivity|].
  apply (fuzzy_match_score_bounds (str_of "Ab") (str_of "aB")
           {| score := 96; positions := [0; 1] |}).
  vm_compute. reflexivity.
Defined.

(** ** Text after the target *)

Lemma len_app {A} (s e : list A) : len (s ++ e) = len s + len e.
Proof. unfold len. rewrite length_app. lia. Qed.

Lemma lower_app (s e : str) : lower (s ++ e) = lower s ++ lower e.
Proof. unfold lower. apply map_app. Qed.

Lemma str_at_app_l (s e : str) (i : Z) :
  0 <= i < len s -> str_at (s ++ e) i = str_at s i.
Proof.
  intros Hi. unfold str_at.
  destruct (i <? 0) eqn:E; [lia|]. rewrite E.
  rewrite lookup_app_l; [done|]. unfold len in Hi. lia.
Qed.

Lemma is_word_boundary_app_l (target extra : str) (i : Z) :
  0 <= i < len target ->
  _is_word_boundary (target ++ extra) i = _is_word_boundary target i.
Proof.
  intros Hi. unfold _is_word_boundary.
  destruct (i =? 0) eqn:E; [done|].
  by rewrite !str_at_app_l by lia.
Qed.

Lemma score_match_app_l (target extra : str) (q i prev sc : Z) :
  0 <= i < len target ->
  score_match (target ++ extra) q i prev sc = score_match target q i prev sc.
Proof.
  intros Hi. unfold score_match. by rewrite is_word_boundary_app_l.
Qed.

Lemma match_while_app_l (target extra : str) fuel q c v v' :
  0 <= mv_target_idx v ->
  match_while fuel target (lower target) (len target) q c v = Ok (true, v') ->
  forall fuel',
    (Z.to_nat (len (target ++ extra) - mv_target_idx v) <= fuel')%nat ->
    match_while fuel' (target ++ extra) (lower (target ++ extra))
      (len (target ++ extra)) q c v = Ok (true, v').
Proof.
  rewrite lower_app.
  revert v. induction fuel as [|fuel IH]; intros v Hidx; simpl;
    destruct (mv_target_idx v <? len target) eqn:E; try done.
  intros Hrun fuel' Hfuel.
  pose proof (len_nonneg extra) as Hextra.
  destruct fuel' as [|fuel']; [rewrite len_app in Hfuel; lia|].
  simpl.
  assert ((mv_target_idx v <? len (target ++ extra)) = true) as ->
    by (rewrite len_app; lia).
  rewrite str_at_app_l by (rewrite len_lower; lia).
  destruct (str_at (lower target) (mv_target_idx v)) as [a|e]; [|done].
  simpl in *. destruct (Ascii.eqb a c).
  - rewrite score_match_app_l by lia. done.
  - apply (IH (mkMatchVars _ _ _ _)); simpl; [lia|done|].
    rewrite len_app in *. lia.
Qed.

Lemma match_for_app_l (target extra : str) qs q v v' :
  0 <= mv_target_idx v ->
  match_for target (lower target) (len target) q qs v = Ok (Some v') ->
  match_for (target ++ extra) (lower (target ++ extra))
    (len (target ++ extra)) q qs v = Ok (Some v').
Proof.
  revert q v. induction qs as [|c qs IH]; intros q v Hidx; simpl; [done|].
  destruct (match_while _ target (lower target) (len target) q c v)
    as [[found v1]|e] eqn:Ewhile; [|done].
  simpl. destruct found; [|done]. simpl. intros Hfor.
  rewrite (match_while_app_l target extra _ q c v v1 Hidx Ewhile) by lia.
  simpl. apply IH; [|done].
  apply match_while_found in Ewhile as (j & Hj & _ & -> & _). lia.
Qed.

(** X5. On Latin-1 strings, text added after the target changes nothing to
    a match: the same positions, the same score. *)
Theorem fuzzy_match_app_l (query target extra : str) (m : FuzzyMatch) :
  fuzzy_match query target = Ok (Some m) ->
  fuzzy_match query (target ++ extra) = Ok (Some m).
Proof.
  unfold fuzzy_match. destruct query as [|q0 query]; [done|].
  destruct (len (q0 :: query) >? len target) eqn:E; [done|].
  pose proof (len_nonneg extra) as Hextra.
  assert ((len (q0 :: query) >? len (target ++ extra)) = false) as ->
    by (rewrite len_app; lia).
  destruct (match_for target _ _ _ _ _) as [[v|]|e] eqn:Efor; try done.
  rewrite (match_for_app_l target extra _ _ _ v) by done.
  done.
Qed.

Lemma fuzzy_match_app_l_witness :
  fuzzy_match (str_of "fb") (str_of "foo_bar")
  = Ok (Some {| score := 71; positions := [0; 4] |})
  /\ fuzzy_match (str_of "fb") (str_of "foo_bar" ++ str_of ".md")
     = Ok (Some {| score := 71; positions := [0; 4] |}).
Proof.
  split; [vm_compute; reflexivity|].
  apply (fuzzy_match_app_l (str_of "fb") (str_of "foo_bar") (str_of ".md")
           {| score := 71; positions := [0; 4] |}).
  vm_compute. reflexivity.
Defined.

(** * Further properties of the ranker *)

Lemma score_of_fuzzy_score (query target : str) (s : Z) :
  score_of query target = Some s <-> fuzzy_score query target = Ok (Some s).
Proof.
  unfold score_of. destruct (fuzzy_score_total query target) as [r ->].
  split; congruence.
Qed.

Lemma scored_of_elem {T} (query : str) (key : T -> str) (items : list T)
    (c : T) (s : Z) :
  (c, s) ∈ scored_of query key items
  <-> c ∈ items /\ fuzzy_score query (key c) = Ok (Some s).
Proof.
  rewrite <- score_of_fuzzy_score. split; [apply scored_of_score|].
  intros [Hin Hs]. unfold scored_of. apply list_elem_of_omap.
  exists c. split; [done|]. by rewrite Hs.
Qed.

Lemma scored_of_fst {T} (query : str) (key : T -> str) (items : list T) :
  (scored_of query key items).*1 = List.filter (matches query key) items.
Proof.
  induction items as [|c items IH]; [done|].
  change (scored_of query key (c :: items))
    with (match pair c <$> score_of query (key c) with
          | Some y => y :: scored_of query key items
          | None => scored_of query key items
          end).
  simpl List.filter. unfold matches at 1, score_of.
  destruct (fuzzy_score query (key c)) as [[s|]|e]; simpl;
    [f_equal; exact IH|exact IH..].
Qed.

Lemma slice_to_elem {A} (l : list A) (stop : Z) (x : A) :
  x ∈ slice_to l stop -> x ∈ l.
Proof.
  unfold slice_to. intros H. eapply elem_of_sublist; [exact H|].
  apply sublist_take.
Qed.

(** The whole ranking, before [limit] cuts it. *)
Lemma rank_matches_slice {T} (query : str) (items : list T) (key : T -> str)
    (limit : Z) :
  exists full,
    rank_matches query items key (len items) = Ok full
    /\ rank_matches query items key limit = Ok (slice_to full limit)
    /\ full.*1 ≡ₚ List.filter (matches query key) items
    /\ (forall c s, (c, s) ∈ full
          <-> c ∈ items /\ fuzzy_score query (key c) = Ok (Some s)).
Proof.
  destruct (decide (query = [])) as [->|Hne].
  - exists (map (fun item => (item, 0)) items). simpl.
    rewrite (slice_to_all items (len items)) by lia. split_and!; [done| | |].
    + f_equal. unfold slice_to, len. rewrite length_map.
      by rewrite fmap_take.
    + assert ((map (fun item : T => (item, 0)) items).*1
              = List.filter (matches [] key) items) as ->; [|done].
      clear. induction items as [|c items IH]; [done|].
      simpl. f_equal. exact IH.
    + intros c s. rewrite list_elem_of_fmap. split.
      * intros (c' & [= -> ->] & Hin). done.
      * intros [Hin [= <-]]. by exists c.
  - rewrite !rank_matches_nonempty by done.
    exists (list_sort tuple_lt (sort_key key) (scored_of query key items)).
    split_and!; [|done| |].
    + rewrite slice_to_all; [done|]. unfold len.
      rewrite (Permutation_length (list_sort_perm _ _ _)).
      pose proof (scored_of_length query key items). lia.
    + by rewrite list_sort_perm, scored_of_fst.
    + intros c s. by rewrite list_sort_perm, scored_of_elem.
Qed.

(** X6. Whatever the limit, every pair in the result of [rank_matches]
    holds one of the candidates given, with the score that [fuzzy_score]
    gives its extracted string; a candidate that does not match never
    appears. *)
Theorem rank_matches_sound {T} (query : str) (items : list T) (key : T -> str)
    (limit : Z) (out : list (T * Z)) (c : T) (s : Z) :
  rank_matches query items key limit = Ok out ->
  (c, s) ∈ out ->
  c ∈ items /\ fuzzy_score query (key c) = Ok (Some s).
Proof.
  destruct (rank_matches_slice query items key limit)
    as (full & _ & -> & _ & Hfull).
  intros [= <-] Hin%slice_to_elem. by apply Hfull.
Qed.

Lemma rank_matches_sound_witness :
  rank_matches (str_of "a") [str_of "xa"; str_of "ab"; str_of "b"] id 1
  = Ok [(str_of "ab", 48)]
  /\ (str_of "ab", 48) ∈ [(str_of "ab", 48)]
  /\ str_of "ab" ∈ [str_of "xa"; str_of "ab"; str_of "b"]
  /\ fuzzy_score (str_of "a") (id (str_of "ab")) = Ok (Some 48).
Proof.
  split; [vm_compute; reflexivity|].
  split; [left|].
  apply (rank_matches_sound (str_of "a")
           [str_of "xa"; str_of "ab"; str_of "b"] id 1
           [(str_of "ab", 48)] (str_of "ab") 48).
  - vm_compute. reflexivity.
  - left.
Defined.

(** X7. With a limit of at least the number of candidates nothing is lost:
    the candidates in the result are those that match the query, each as
    often as it was given. *)
Theorem rank_matches_complete {T} (query : str) (items : list T)
    (key : T -> str) (limit : Z) :
  len items <= limit ->
  exists out, rank_matches query items key limit = Ok out
              /\ out.*1 ≡ₚ List.filter (matches query key) items.
Proof.
  intros Hlimit.
  destruct (rank_matches_slice query items key limit)
    as (full & Hfull & -> & Hperm & _).
  exists full. split; [|done]. f_equal. apply slice_to_all.
  assert (len full <= len items); [|lia].
  unfold len. rewrite <- (length_fmap fst full), Hperm.
  pose proof (List.filter_length_le (matches query key) items). lia.
Qed.

Lemma rank_matches_complete_witness :
  len [str_of "xa"; str_of "ab"; str_of "b"] <= 3
  /\ exists out,
       rank_matches (str_of "a") [str_of "xa"; str_of "ab"; str_of "b"] id 3
       = Ok out
       /\ out.*1 ≡ₚ List.filter (matches (str_of "a") id)
                      [str_of "xa"; str_of "ab"; str_of "b"].
Proof.
  split; [vm_compute; discriminate|].
  apply (rank_matches_complete (str_of "a")
           [str_of "xa"; str_of "ab"; str_of "b"] id 3).
  vm_compute. discriminate.
Defined.

(** X8. Raising the limit only adds results at the end: the result for a
    limit [n] is the first [n] pairs of the result for any larger limit. *)
Theorem rank_matches_limit_prefix {T} (query : str) (items : list T)
    (key : T -> str) (n m : Z) :
  0 <= n <= m ->
  exists out, rank_matches query items key m = Ok out
              /\ rank_matches query items key n = Ok (take (Z.to_nat n) out).
Proof.
  intros Hnm.
  destruct (rank_matches_slice query items key m) as (full & Hf & -> & _).
  destruct (rank_matches_slice query items key n) as (full' & Hf' & -> & _).
  assert (full' = full) as -> by congruence.
  eexists. split; [done|]. f_equal.
  rewrite !slice_to_nonneg by lia. rewrite take_take. f_equal. lia.
Qed.

Lemma rank_matches_limit_prefix_witness :
  0 <= 1 <= 2
  /\ exists out,
       rank_matches (str_of "a") [str_of "xa"; str_of "ab"; str_of "b"] id 2
       = Ok out
       /\ rank_matches (str_of "a") [str_of "xa"; str_of "ab"; str_of "b"] id 1
          = Ok (take (Z.to_nat 1) out).
Proof.
  split; [lia|].
  apply (rank_matches_limit_prefix (str_of "a")
           [str_of "xa"; str_of "ab"; str_of "b"] id 1 2).
  lia.
Defined.

Lemma tuple_lt_irrefl (a : Z * str) : tuple_lt a a = false.
Proof.
  destruct (tuple_lt a a) eqn:E; [|done].
  by rewrite (tuple_lt_asym _ _ E) in E.
Qed.

Lemma scored_of_filter_key {T} (query : str) (key : T -> str) (items : list T)
    (k : str) :
  (List.filter (fun x => bool_decide (key x.1 = k))
     (scored_of query key items)).*1
  = List.filter (fun c => bool_decide (key c = k))
      (List.filter (matches query key) items).
Proof.
  induction items as [|c items IH]; [done|].
  change (scored_of query key (c :: items))
    with (match pair c <$> score_of query (key c) with
          | Some y => y :: scored_of query key items
          | None => scored_of query key items
          end).
  simpl List.filter at 3. unfold matches at 1, score_of.
  destruct (fuzzy_score query (key c)) as [[s|]|e]; simpl;
    [|exact IH..].
  destruct (bool_decide (key c = k)); simpl; [f_equal|]; exact IH.
Qed.

(** X9. Ties keep the order given: among the results, the candidates with
    one and the same extracted string stand in the order in which they
    were passed (the limit being at least the number of candidates). *)
Theorem rank_matches_stable {T} (query : str) (items : list T)
    (key : T -> str) (limit : Z) (k : str) :
  len items <= limit ->
  exists out,
    rank_matches query items key limit = Ok out
    /\ (List.filter (fun x => bool_decide (key x.1 = k)) out).*1
       = List.filter (fun c => bool_decide (key c = k))
           (List.filter (matches query key) items).
Proof.
  intros Hlimit. destruct (decide (query = [])) as [->|Hne].
  - eexists. split; [done|]. rewrite slice_to_all by done.
    clear. induction items as [|c items IH]; [done|]. simpl.
    destruct (bool_decide (key c = k)); simpl; [f_equal|]; exact IH.
  - rewrite rank_matches_nonempty by done. eexists. split; [done|].
    rewrite slice_to_all.
    2:{ unfold len in *. rewrite (Permutation_length (list_sort_perm _ _ _)).
        pose proof (scored_of_length query key items). lia. }
    rewrite <- scored_of_filter_key. f_equal.
    set (P := fun x : T * Z =>
      bool_decide (key x.1 = k) && bool_decide (score_of query k = Some x.2)).
    assert (forall l : list (T * Z),
      (forall x, x ∈ l -> x ∈ scored_of query key items) ->
      List.filter (fun x => bool_decide (key x.1 = k)) l = List.filter P l)
      as Hext.
    { intros l Hl. apply List.filter_ext_in. intros [c s] Hin.
      apply list_elem_of_In, Hl, scored_of_score in Hin as [_ Hs].
      unfold P. simpl. destruct (bool_decide_reflect (key c = k)) as [<-|];
        [|done].
      simpl. by rewrite bool_decide_true. }
    rewrite (Hext (list_sort _ _ _)), (Hext (scored_of _ _ _)); [|done|].
    + apply list_sort_stable.
      intros [c1 s1] [c2 s2]. unfold P, sort_key. simpl.
      intros [H1 H1']%andb_prop [H2 H2']%andb_prop.
      apply bool_decide_eq_true in H1, H1', H2, H2'.
      assert (s1 = s2) as -> by congruence. rewrite H1, H2.
      apply tuple_lt_irrefl.
    + intros x. by rewrite list_sort_perm.
Qed.

Lemma rank_matches_stable_witness :
  len [(1, str_of "ab"); (2, str_of "xa"); (3, str_of "ab")] <= 50
  /\ exists out,
       rank_matches (str_of "a")
         [(1, str_of "ab"); (2, str_of "xa"); (3, str_of "ab")] snd 50 = Ok out
       /\ (List.filter (fun x => bool_decide (x.1.2 = str_of "ab")) out).*1
          = List.filter (fun c => bool_decide (c.2 = str_of "ab"))
              (List.filter (matches (str_of "a") snd)
                 [(1, str_of "ab"); (2, str_of "xa"); (3, str_of "ab")]).
Proof.
  split; [vm_compute; discriminate|].
  apply (rank_matches_stable (str_of "a")
           [(1, str_of "ab"); (2, str_of "xa"); (3, str_of "ab")] snd 50
           (str_of "ab")).
  vm_compute. discriminate.
Defined.

(** X10. The first result is a best one: for a non-empty query, no candidate
    given scores higher than the candidate that comes first. *)
Theorem rank_matches_best_first {T} (query : str) (items : list T)
    (key : T -> str) (limit : Z) (c0 : T) (s0 : Z) (rest : list (T * Z))
    (c : T) (s : Z) :
  query <> [] ->
  rank_matches query items key limit = Ok ((c0, s0) :: rest) ->
  c ∈ items ->
  fuzzy_score query (key c) = Ok (Some s) ->
  s <= s0.
Proof.
  intros Hne Hrank Hin Hs. rewrite rank_matches_nonempty in Hrank by done.
  injection Hrank as Hrank.
  pose proof (list_sort_sorted tuple_lt (sort_key key) tuple_lt_asym
                (scored_of query key items)) as Hsorted.
  assert ((c, s) ∈ list_sort tuple_lt (sort_key key) (scored_of query key items))
    as Hcs by (rewrite list_sort_perm; by apply scored_of_elem).
  destruct (list_sort _ _ _) as [|x sorted].
  { unfold slice_to in Hrank. by rewrite take_nil in Hrank. }
  assert (x = (c0, s0)) as ->.
  { unfold slice_to in Hrank. destruct (Z.to_nat _); [done|].
    simpl in Hrank. by injection Hrank. }
  apply Sorted_StronglySorted in Hsorted; [|apply _].
  apply StronglySorted_inv in Hsorted as [_ Hle].
  apply elem_of_cons in Hcs as [[= -> ->]|Hcs]; [done|].
  rewrite Forall_forall in Hle. apply Hle in Hcs.
  apply tuple_le_alt in Hcs. unfold sort_key in Hcs. simpl in Hcs. lia.
Qed.

Lemma rank_matches_best_first_witness :
  str_of "a" <> []
  /\ rank_matches (str_of "a") [str_of "xa"; str_of "ab"; str_of "b"] id 50
     = Ok [(str_of "ab", 48); (str_of "xa", 0)]
  /\ str_of "xa" ∈ [str_of "xa"; str_of "ab"; str_of "b"]
  /\ fuzzy_score (str_of "a") (id (str_of "xa")) = Ok (Some 0)
  /\ 0 <= 48.
Proof.
  split; [vm_compute; discriminate|].
  split; [vm_compute; reflexivity|].
  split; [left|].
  split; [vm_compute; reflexivity|].
  apply (rank_matches_best_first (str_of "a")
           [str_of "xa"; str_of "ab"; str_of "b"] id 50
           (str_of "ab") 48 [(str_of "xa", 0)] (str_of "xa") 0).
  - vm_compute. discriminate.
  - vm_compute. reflexivity.
  - left.
  - vm_compute. reflexivity.
Defined.

(** * Further properties of the helpers *)

(** X11. At or past the end of the target [_is_word_boundary] raises
    [IndexError], with one exception: just past the end it answers [True]
    when the last character is one of the separators. *)
Theorem is_word_boundary_past_end (target : str) (index : Z) :
  0 < index ->
  len target <= index ->
  _is_word_boundary target index
  = match last target with
    | Some c =>
        if (index =? len target) && bool_decide (c ∈ WORD_BOUNDARY_CHARS)
        then Ok true
        else Raise IndexError
    | None => Raise IndexError
    end.
Proof.
  intros Hpos Hlen. unfold _is_word_boundary.
  destruct (index =? 0) eqn:E0; [lia|].
  assert (str_at target index = Raise IndexError) as Hat.
  { unfold str_at. destruct (index <? 0) eqn:E; [lia|]. rewrite E.
    rewrite lookup_ge_None_2; [done|]. unfold len in Hlen. lia. }
  destruct (index =? len target) eqn:E.
  - apply Z.eqb_eq in E. subst index.
    unfold str_at at 1. destruct (len target - 1 <? 0) eqn:E1; [lia|].
    rewrite E1. rewrite last_lookup.
    replace (Z.to_nat (len target - 1)) with (pred (length target))
      by (unfold len; lia).
    destruct (target !! pred (length target)) as [c|]; [|done]. simpl.
    destruct (bool_decide (c ∈ WORD_BOUNDARY_CHARS)); [done|].
    by rewrite Hat.
  - assert (str_at target (index - 1) = Raise IndexError) as ->.
    { unfold str_at. destruct (index - 1 <? 0) eqn:E1; [lia|]. rewrite E1.
      rewrite lookup_ge_None_2; [done|]. unfold len in *. lia. }
    simpl. by destruct (last target).
Qed.

Lemma is_word_boundary_past_end_witness :
  0 < 2
  /\ len (str_of "a/") <= 2
  /\ _is_word_boundary (str_of "a/") 2 = Ok true
  /\ _is_word_boundary (str_of "ab") 2 = Raise IndexError.
Proof.
  split; [lia|]. split; [vm_compute; discriminate|].
  split; [|vm_compute; reflexivity].
  rewrite (is_word_boundary_past_end (str_of "a/") 2);
    [reflexivity|lia|vm_compute; discriminate].
Defined.

(** * Search results *)

Lemma lstrip_nil (s : str) :
  lstrip s = [] <-> Forall (fun c => isspace c = true) s.
Proof.
  induction s as [|c s IH]; simpl; [by split; [constructor|]|].
  destruct (isspace c) eqn:E.
  - rewrite IH. split; [by constructor|by inv 1].
  - split; [done|]. inv 1. congruence.
Qed.

Lemma strip_nil (s : str) :
  strip s = [] <-> Forall (fun c => isspace c = true) s.
Proof.
  unfold strip, rstrip. split.
  - intros H. destruct (lstrip s) as [|c s'] eqn:E; [by apply lstrip_nil|].
    apply (f_equal reverse) in H. rewrite reverse_involutive in H.
    simpl in H. apply lstrip_nil in H. apply Forall_reverse in H.
    rewrite reverse_involutive in H. inv H.
    simpl in E. clear -E H2. exfalso.
    induction s as [|d s IH]; simpl in E; [done|].
    destruct (isspace d) eqn:Ed; [by apply IH|]. congruence.
  - intros H. apply lstrip_nil in H. by rewrite H.
Qed.

(** X12. A query of white space only, the empty query included, finds
    nothing, whatever the database holds. *)
Theorem search_notes_blank (fetchall : str -> Z -> list models.NoteResult)
    (query : str) (limit candidate_limit : Z) :
  Forall (fun c => isspace c = true) query ->
  models.search_notes fetchall query limit candidate_limit = Ok [].
Proof.
  intros H%strip_nil. unfold models.search_notes. by rewrite H.
Qed.

Lemma search_notes_blank_witness :
  Forall (fun c => isspace c = true) (str_of "  ")
  /\ models.search_notes
       (fun _ _ => [models.mkNoteResult (str_of "1") (str_of "a") (str_of "a.md")])
       (str_of "  ") 50 500 = Ok [].
Proof.
  split; [repeat constructor|].
  apply (search_notes_blank
           (fun _ _ =>
              [models.mkNoteResult (str_of "1") (str_of "a") (str_of "a.md")])
           (str_of "  ") 50 500).
  repeat constructor.
Defined.

(** X13. [search_notes] returns normally, and every note that it returns is
    one of the rows that the database gave for the pattern of the query,
    with a path that the query matches; for a limit that is not negative
    there are at most [limit] of them. *)
Theorem search_notes_sound (fetchall : str -> Z -> list models.NoteResult)
    (query : str) (limit candidate_limit : Z) :
  exists notes,
    models.search_notes fetchall query limit candidate_limit = Ok notes
    /\ (forall note, note ∈ notes ->
          note ∈ fetchall (build_sql_pattern query) candidate_limit
          /\ matches query models.full_path note = true)
    /\ (0 <= limit -> len notes <= limit).
Proof.
  unfold models.search_notes. destruct (strip query) as [|c0 s0].
  { exists []. split_and!; [done| |unfold len; simpl; lia].
    intros note Hin. by apply elem_of_nil in Hin. }
  destruct (rank_matches_slice query
              (fetchall (build_sql_pattern query) candidate_limit)
              models.full_path limit) as (full & _ & -> & _ & Hfull).
  simpl. eexists. split_and!; [done| |].
  - intros note ([note' s] & -> & Hin)%list_elem_of_fmap.
    apply slice_to_elem, Hfull in Hin as [Hin Hs]. split; [done|].
    unfold matches. by rewrite Hs.
  - intros Hlimit. unfold len. rewrite length_map, slice_to_nonneg by done.
    rewrite length_take. lia.
Qed.

(** X14. [getMarkdownLink] and [getMarkdownLinkByPath] raise for no row:
    they return the link of the note in that row, and the empty string
    exactly when the row is negative or past the last result. *)
Theorem getMarkdownLink_total (results : list models.NoteResult) (row : Z) :
  (exists link, models.getMarkdownLink results row = Ok link
                /\ (link = [] <-> ~ 0 <= row < len results)
                /\ forall note, results !! Z.to_nat row = Some note ->
                     0 <= row -> link = models.to_markdown_link note)
  /\ (exists link, models.getMarkdownLinkByPath results row = Ok link
                   /\ (link = [] <-> ~ 0 <= row < len results)
                   /\ forall note, results !! Z.to_nat row = Some note ->
                        0 <= row -> link = models.to_markdown_link_by_path note).
Proof.
  unfold models.getMarkdownLink, models.getMarkdownLinkByPath.
  destruct ((0 <=? row) && (row <? len results)) eqn:E.
  - apply andb_prop in E as [E1%Z.leb_le E2%Z.ltb_lt].
    destruct (lookup_lt_is_Some_2 results (Z.to_nat row)) as [note Hnote].
    { unfold len in E2. lia. }
    unfold list_at. destruct (row <? 0) eqn:E0; [lia|]. rewrite E0, Hnote.
    simpl. split; eexists; (split_and!; [done| |]).
    + split; [done|]. lia.
    + intros note' [= <-] _. done.
    + split; [done|]. lia.
    + intros note' [= <-] _. done.
  - apply andb_false_iff in E as [E%Z.leb_gt|E%Z.ltb_ge];
      (split; exists []; (split_and!; [done|split; [lia|done]|]));
      intros note Hnote%lookup_lt_Some; unfold len in *; lia.
Qed.

(** * The dictation controller *)

Lemma step_quiet (self : controller.DictationController)
    (ev : controller.event) :
  quiet self -> quiet (controller.step self ev).1.
Proof.
  unfold quiet. destruct self as [st text err prog clip].
  destruct ev as [[start stop transcribe]| | |new_text|new_error|message];
    simpl;
    unfold controller.toggle, controller.copyToClipboard, controller.reset,
      controller._on_transcription_finished, controller._start_recording,
      controller._stop_recording, controller._reset; simpl.
  - destruct st, start, stop, transcribe; simpl; tauto.
  - destruct clip, text; simpl; tauto.
  - tauto.
  - intros _. unfold controller.copyToClipboard. simpl.
    destruct clip, new_text; simpl; tauto.
  - tauto.
  - tauto.
Qed.

Lemma run_quiet (self : controller.DictationController)
    (evs : list controller.event) :
  quiet self -> quiet (controller.run self evs).
Proof.
  revert self. induction evs as [|ev evs IH]; intros self H; [done|].
  apply IH. by apply step_quiet.
Qed.

(** X15. Whatever calls and signals reach a new controller, in whatever
    order, and whatever the recorder and the transcriber do: while it is
    idle, recording or transcribing, its transcribed text and its error
    message are empty. *)
Theorem controller_quiet_while_busy (clipboard : option str)
    (evs : list controller.event) :
  let self := controller.run (controller.__init__ clipboard) evs in
  controller._state self = controller.IDLE
  \/ controller._state self = controller.RECORDING
  \/ controller._state self = controller.TRANSCRIBING ->
  controller._transcribed_text self = []
  /\ controller._error_message self = [].
Proof.
  intros self Hstate.
  assert (quiet self) as Hq by (apply run_quiet; by split).
  unfold quiet in Hq. destruct Hstate as [H|[H|H]]; by rewrite H in Hq.
Qed.

Lemma controller_quiet_while_busy_witness :
  let self :=
    controller.run (controller.__init__ (Some []))
      [controller.Toggle (controller.mkEnvironment None None None);
       controller.Toggle (controller.mkEnvironment None None None);
       controller.TranscriptionFinished (str_of "hello");
       controller.Toggle (controller.mkEnvironment None None None)] in
  controller._state self = controller.RECORDING
  /\ controller._clipboard self = Some (str_of "hello")
  /\ controller._transcribed_text self = []
  /\ controller._error_message self = [].
Proof.
  split; [reflexivity|]. split; [reflexivity|].
  apply (controller_quiet_while_busy (Some [])
           [controller.Toggle (controller.mkEnvironment None None None);
            controller.Toggle (controller.mkEnvironment None None None);
            controller.TranscriptionFinished (str_of "hello");
            controller.Toggle (controller.mkEnvironment None None None)]).
  right. left. reflexivity.
Defined.

(** X16. No call changes the state, the transcribed text or the error
    message without emitting the signal of that property.  The progress
    message is announced too, except when [toggle] starts a recording from
    the idle state, which clears it silently. *)
Theorem controller_notifies (self : controller.DictationController)
    (ev : controller.event) :
  let '(self', emitted) := controller.step self ev in
  (controller._state self' <> controller._state self ->
   controller.stateChanged ∈ emitted)
  /\ (controller._transcribed_text self' <> controller._transcribed_text self ->
      controller.transcribedTextChanged ∈ emitted)
  /\ (controller._error_message self' <> controller._error_message self ->
      controller.errorMessageChanged ∈ emitted)
  /\ (controller._progress_message self' <> controller._progress_message self ->
      controller.progressMessageChanged ∈ emitted
      \/ (controller._state self = controller.IDLE
          /\ exists env, ev = controller.Toggle env)).
Proof.
  destruct self as [st text err prog clip].
  destruct ev as [[start stop transcribe]| | |new_text|new_error|message];
    simpl;
    unfold controller.toggle, controller.copyToClipboard, controller.reset,
      controller._on_transcription_finished, controller._start_recording,
      controller._stop_recording, controller._reset,
      controller._on_transcription_error,
      controller._on_transcription_progress; simpl.
  - destruct st, start, stop, transcribe; simpl;
      (split_and!; intros H;
       first [done | set_solver | left; set_solver | right; eauto]).
  - destruct clip, text; simpl; split_and!; intros H; done.
  - split_and!; intros H; first [set_solver | left; set_solver].
  - unfold controller.copyToClipboard. simpl.
    destruct clip, new_text; simpl; split_and!; intros H;
      first [done | set_solver | left; set_solver].
  - split_and!; intros H; first [done | set_solver | left; set_solver].
  - split_and!; intros H; first [done | set_solver | left; set_solver].
Qed.

(** The silent change that X16 excepts does happen. *)
Lemma controller_silent_progress :
  let self :=
    controller.run (controller.__init__ None)
      [controller.TranscriptionProgress (str_of "Transcribing...")] in
  let '(self', emitted) :=
    controller.step self
      (controller.Toggle (controller.mkEnvironment None None None)) in
  controller._progress_message self = str_of "Transcribing..."
  /\ controller._progress_message self' = []
  /\ controller.progressMessageChanged ∉ emitted.
Proof.
  simpl. split_and!; [done..|]. intros H.
  repeat (apply elem_of_cons in H as [H|H]; [discriminate|]).
  by apply elem_of_nil in H.
Qed.

(** X17. Only [copyToClipboard] and the end of a transcription write to the
    clipboard, and what they write is the transcribed text, never the
    empty string; a controller without a clipboard never gets one. *)
Theorem controller_clipboard (self : controller.DictationController)
    (ev : controller.event) :
  let self' := (controller.step self ev).1 in
  (controller._clipboard self = None -> controller._clipboard self' = None)
  /\ (controller._clipboard self' <> controller._clipboard self ->
      controller._clipboard self' = Some (controller._transcribed_text self')
      /\ controller._transcribed_text self' <> []
      /\ (ev = controller.CopyToClipboard
          \/ exists text, ev = controller.TranscriptionFinished text)).
Proof.
  destruct self as [st text err prog clip].
  destruct ev as [[start stop transcribe]| | |new_text|new_error|message];
    simpl;
    unfold controller.toggle, controller.copyToClipboard, controller.reset,
      controller._on_transcription_finished, controller._start_recording,
      controller._stop_recording, controller._reset; simpl.
  - destruct st, start, stop, transcribe; simpl; split; by intros.
  - destruct clip, text; simpl; split; intros; try done.
    split_and!; [done|done|by left].
  - split; by intros.
  - unfold controller.copyToClipboard. simpl.
    destruct clip, new_text; simpl; split; intros; try done.
    split_and!; [done|done|right; by eexists].
  - split; by intros.
  - split; by intros.
Qed.

(** * The model cache *)

(** X18. Once [get_model] has returned a model for a size, asking again for
    that size returns the same model and constructs nothing. *)
Theorem get_model_cached (loads : str -> bool) (model_size : str)
    (st st' : transcriber.module_state) (model : nat) :
  transcriber.get_model loads model_size st = (Some model, st') ->
  transcriber.get_model loads model_size st' = (Some model, st').
Proof.
  unfold transcriber.get_model.
  destruct (transcriber._cached_model st) as [m|] eqn:Em.
  - case_bool_decide as Hsize.
    + intros [= <- <-]. rewrite Em. by rewrite bool_decide_true.
    + destruct (loads model_size); [|done].
      intros [= <- <-]. simpl. by rewrite bool_decide_true.
  - destruct (loads model_size); [|done].
    intros [= <- <-]. simpl. by rewrite bool_decide_true.
Qed.

Lemma get_model_cached_witness :
  transcriber.get_model (fun _ => true) (str_of "base") transcriber.initial
  = (Some 0%nat,
     transcriber.mkModuleState (Some 0%nat) (Some (str_of "base"))
       [str_of "base"])
  /\ transcriber.get_model (fun _ => true) (str_of "base")
       (transcriber.mkModuleState (Some 0%nat) (Some (str_of "base"))
          [str_of "base"])
     = (Some 0%nat,
        transcriber.mkModuleState (Some 0%nat) (Some (str_of "base"))
          [str_of "base"]).
Proof.
  split; [reflexivity|].
  apply (get_model_cached (fun _ => true) (str_of "base") transcriber.initial).
  reflexivity.
Defined.

Lemma get_model_latest (loads : str -> bool) (model_size : str)
    (st : transcriber.module_state) :
  (match transcriber._cached_model st with
   | Some model =>
       S model = length (transcriber.constructed st)
       /\ exists size, transcriber._cached_model_size st = Some size
                       /\ transcriber.constructed st !! model = Some size
   | None => transcriber.constructed st = []
   end) ->
  let st' := (transcriber.get_model loads model_size st).2 in
  match transcriber._cached_model st' with
  | Some model =>
      S model = length (transcriber.constructed st')
      /\ exists size, transcriber._cached_model_size st' = Some size
                      /\ transcriber.constructed st' !! model = Some size
  | None => transcriber.constructed st' = []
  end.
Proof.
  unfold transcriber.get_model.
  destruct (transcriber._cached_model st) as [m|] eqn:Em.
  - case_bool_decide as Hsize; simpl; [by rewrite Em|].
    destruct (loads model_size); simpl; [|by rewrite Em].
    intros _. rewrite length_app. simpl. split; [lia|].
    exists model_size. split; [done|].
    by rewrite lookup_app_r, Nat.sub_diag.
  - destruct (loads model_size); simpl; [|by rewrite Em].
    intros ->. simpl. split; [done|]. by exists model_size.
Qed.

(** X19. After any sequence of calls of [get_model], the cache holds the
    model constructed last, together with the size that it was constructed
    with; it is empty only as long as no model was constructed. *)
Theorem get_model_cache_latest (loads : str -> bool) (sizes : list str) :
  let st := transcriber.after_calls loads sizes transcriber.initial in
  match transcriber._cached_model st with
  | Some model =>
      S model = length (transcriber.constructed st)
      /\ exists size, transcriber._cached_model_size st = Some size
                      /\ transcriber.constructed st !! model = Some size
  | None => transcriber.constructed st = []
  end.
Proof.
  unfold transcriber.after_calls.
  assert (match transcriber._cached_model transcriber.initial with
          | Some model =>
              S model = length (transcriber.constructed transcriber.initial)
              /\ exists size,
                   transcriber._cached_model_size transcriber.initial
                   = Some size
                   /\ transcriber.constructed transcriber.initial !! model
                      = Some size
          | None => transcriber.constructed transcriber.initial = []
          end) as Hinit by done.
  revert Hinit. generalize transcriber.initial.
  induction sizes as [|size sizes IH]; intros st Hst; [done|].
  simpl. apply IH. by apply get_model_latest.
Qed.

(** * The matcher beyond Latin-1 *)

Lemma wide_lower_latin1 (s : str) :
  wide.lower (wide.latin1 s) = wide.latin1 (lower s).
Proof. induction s as [|a s IH]; simpl; [done|]. f_equal. exact IH. Qed.

Lemma wide_len_latin1 (s : str) : len (wide.latin1 s) = len s.
Proof. unfold len, wide.latin1. by rewrite length_fmap. Qed.

Lemma list_at_latin1 (s : str) (i : Z) :
  list_at (wide.latin1 s) i = res_map wide.Latin1 (str_at s i).
Proof.
  unfold list_at, str_at. rewrite wide_len_latin1.
  destruct ((if i <? 0 then i + len s else i) <? 0); [done|].
  unfold wide.latin1. rewrite list_lookup_fmap.
  by destruct (s !! _).
Qed.

Lemma wide_separator_latin1 (a : ascii) :
  bool_decide (wide.Latin1 a ∈ wide.WORD_BOUNDARY_CHARS)
  = bool_decide (a ∈ WORD_BOUNDARY_CHARS).
Proof.
  apply bool_decide_ext. unfold wide.WORD_BOUNDARY_CHARS, wide.latin1,
    WORD_BOUNDARY_CHARS.
  rewrite elem_of_list_to_set, list_elem_of_fmap. split.
  - by intros (b & [= ->] & Hb).
  - intros Ha. by exists a.
Qed.

Lemma wide_is_word_boundary_latin1 (target : str) (index : Z) :
  wide._is_word_boundary (wide.latin1 target) index
  = _is_word_boundary target index.
Proof.
  unfold wide._is_word_boundary, _is_word_boundary.
  destruct (index =? 0); [done|]. rewrite !list_at_latin1.
  destruct (str_at target (index - 1)) as [p|e]; [|done]. simpl.
  rewrite wide_separator_latin1.
  destruct (bool_decide (p ∈ WORD_BOUNDARY_CHARS)); [done|].
  by destruct (str_at target index).
Qed.

Lemma wide_score_match_latin1 (target : str) (q i prev sc : Z) :
  wide.score_match (wide.latin1 target) q i prev sc
  = score_match target q i prev sc.
Proof.
  unfold wide.score_match, score_match.
  by rewrite wide_is_word_boundary_latin1.
Qed.

Lemma wide_match_while_latin1 fuel (target target_lower : str) target_len q
    (c : ascii) v :
  wide.match_while fuel (wide.latin1 target) (wide.latin1 target_lower)
    target_len q (wide.Latin1 c) v
  = match_while fuel target target_lower target_len q c v.
Proof.
  revert v. induction fuel as [|fuel IH]; intros v; simpl; [done|].
  destruct (mv_target_idx v <? target_len); [|done].
  rewrite list_at_latin1.
  destruct (str_at target_lower (mv_target_idx v)) as [a|e]; [|done]. simpl.
  rewrite wide_score_match_latin1.
  destruct (Ascii.eqb a c) eqn:E.
  - apply Ascii.eqb_eq in E as ->. by rewrite bool_decide_true.
  - apply Ascii.eqb_neq in E. rewrite bool_decide_false by congruence.
    apply IH.
Qed.

Lemma wide_match_for_latin1 (target target_lower : str) target_len
    (qs : str) q v :
  wide.match_for (wide.latin1 target) (wide.latin1 target_lower) target_len q
    (wide.latin1 qs) v
  = match_for target target_lower target_len q qs v.
Proof.
  revert q v. induction qs as [|c qs IH]; intros q v; simpl; [done|].
  rewrite wide_match_while_latin1.
  destruct (match_while _ _ _ _ _ _ _) as [[[] v']|e]; simpl; [apply IH|done..].
Qed.

(** On Latin-1 strings the second embedding of [fuzzy_match] computes what
    the first computes. *)
Lemma wide_fuzzy_match_latin1 (query target : str) :
  wide.fuzzy_match (wide.latin1 query) (wide.latin1 target)
  = fuzzy_match query target.
Proof.
  destruct query as [|q0 query]; [done|].
  unfold wide.fuzzy_match, fuzzy_match.
  change (wide.latin1 (q0 :: query)) with (wide.Latin1 q0 :: wide.latin1 query).
  cbv beta iota zeta.
  change (wide.Latin1 q0 :: wide.latin1 query) with (wide.latin1 (q0 :: query)).
  rewrite !wide_lower_latin1, !wide_len_latin1.
  destruct (len (q0 :: query) >? len target); [done|].
  by rewrite wide_match_for_latin1.
Qed.




